(** * Contact normalisation and uniqueness counting (src/main.py)

    A shallow embedding of [cleanup_phone_numbers], [cleanup_emails] and
    [get_unique_contacts_count], and the properties the specification states
    about them; then of the handler [save_contacts] that calls them, with
    further properties of the code.

    Conventions of the embedding:
    - a Python [str] is a [string]; a character is a code point below 256,
      and [lower], [isspace] follow Python on exactly those code points;
    - a Python [set] of strings is a [gset string], a [list] is a [list];
    - Python's unbounded [int] is [Z];
    - the [phonenumbers] package is an external library: it is an interface
      ([PhoneNumbers]) whose [parse] either returns a number or raises
      [NumberParseException];
    - an exception is the [Raise] branch of [result]. *)

From Stdlib Require Import ZArith NArith Ascii String.
From stdpp Require Import base tactics option list gmap sets strings.

Local Open Scope string_scope.
Local Open Scope list_scope.

(** ** Python [str] methods used by the source *)

Module PyStr.

(** [c.isspace()] for a code point below 256: TAB..CR, FS..US, SPACE,
    NEL (0x85) and NBSP (0xA0). *)
Definition isspace (c : ascii) : bool :=
  let n := N_of_ascii c in
  (((9 <=? n) && (n <=? 13)) || ((28 <=? n) && (n <=? 32))
   || (n =? 133) || (n =? 160))%N.

(** [c.lower()] for a code point below 256: A..Z and the capital letters
    0xC0..0xDE (the multiplication sign 0xD7 is no letter) move up by 32. *)
Definition lower_char (c : ascii) : ascii :=
  let n := N_of_ascii c in
  if (((65 <=? n) && (n <=? 90))
      || ((192 <=? n) && (n <=? 222) && negb (n =? 215)))%N
  then ascii_of_N (n + 32) else c.

Fixpoint lower (s : string) : string :=
  match s with
  | EmptyString => EmptyString
  | String c s' => String (lower_char c) (lower s')
  end.

Fixpoint lstrip (s : string) : string :=
  match s with
  | EmptyString => EmptyString
  | String c s' => if isspace c then lstrip s' else s
  end.

Fixpoint rstrip (s : string) : string :=
  match s with
  | EmptyString => EmptyString
  | String c s' =>
      match rstrip s' with
      | EmptyString => if isspace c then EmptyString else String c EmptyString
      | r => String c r
      end
  end.

(** [s.strip()]: leading and trailing whitespace removed. *)
Definition strip (s : string) : string := rstrip (lstrip s).

(** [s.startswith(p)]. *)
Fixpoint startswith (s p : string) {struct p} : bool :=
  match p with
  | EmptyString => true
  | String a p' =>
      match s with
      | EmptyString => false
      | String b s' => Ascii.eqb a b && startswith s' p'
      end
  end.

End PyStr.

Arguments PyStr.isspace : simpl never.
Arguments PyStr.lower_char : simpl never.

(** ** Exceptions *)

(** [phonenumbers.NumberParseException.error_type]. *)
Inductive ErrorType : Set :=
| INVALID_COUNTRY_CODE
| NOT_A_NUMBER
| TOO_SHORT_AFTER_IDD
| TOO_SHORT_NSN
| TOO_LONG.

Inductive exn : Set :=
| NumberParseException (error_type : ErrorType).

Inductive result (A : Type) : Type :=
| Ok (a : A)
| Raise (e : exn).
Arguments Ok {A} a.
Arguments Raise {A} e.

#[global] Instance result_ret : MRet result := fun A a => Ok a.

#[global] Instance result_bind : MBind result := fun A B k m =>
  match m with
  | Ok a => k a
  | Raise e => Raise e
  end.

(** [for x in l: body], threading the loop's variables as a state; an
    exception leaving [body] leaves the loop. *)
Fixpoint for_each {A St : Type} (body : A → St → result St)
    (l : list A) (st : St) : result St :=
  match l with
  | [] => Ok st
  | x :: l' => st' ← body x st ; for_each body l' st'
  end.

(** ** The [phonenumbers] interface *)

(** [phonenumbers.PhoneNumberFormat]. *)
Inductive PhoneNumberFormat : Set := E164 | INTERNATIONAL | NATIONAL | RFC3966.

Class PhoneNumbers := {
  PhoneNumber : Type;
  (** [phonenumbers.parse(number, region)]; [region] is [None] or a code. *)
  parse : string → option string → result PhoneNumber;
  (** [phonenumbers.format_number(numobj, num_format)]. *)
  format_number : PhoneNumber → PhoneNumberFormat → string
}.

(** ** The normaliser *)

(** The two local variables of both clean-up loops: [seen] and the output
    list ([cleaned_phones], [cleaned_emails]). *)
Definition dedup_state : Type := gset string * list string.

Definition initial : dedup_state := (∅, []).

(** [if x not in seen: seen.add(x); cleaned.append(x)]. *)
Definition add_if_new (x : string) (st : dedup_state) : dedup_state :=
  if decide (x ∈ st.1) then st else ({[x]} ∪ st.1, st.2 ++ [x]).

Section Phones.
Context `{PhoneNumbers}.

(** [None if phone.strip().startswith('+') else 'IN']. *)
Definition region_of (phone : string) : option string :=
  if PyStr.startswith (PyStr.strip phone) "+" then None else Some "IN".

(** The body of the [try]: nothing is mutated before [parse] returns, so
    an exception leaves [seen] and [cleaned_phones] as they were. *)
Definition try_block (phone : string) (st : dedup_state) : result dedup_state :=
  let region := region_of phone in
  parsed ← parse phone region ;
  let formatted := format_number parsed INTERNATIONAL in
  Ok (add_if_new formatted st).

(** [try: ... except phonenumbers.NumberParseException: ...]. *)
Definition loop_body (phone : string) (st : dedup_state) : result dedup_state :=
  match try_block phone st with
  | Ok st' => Ok st'
  | Raise (NumberParseException _) => Ok (add_if_new phone st)
  end.

Definition cleanup_phone_numbers (phones : list string) : result (list string) :=
  st ← for_each loop_body phones initial ;
  Ok st.2.

End Phones.

Definition cleanup_emails (emails : list string) : list string :=
  (fold_left
     (fun st email =>
        let cleaned_email := PyStr.strip (PyStr.lower email) in
        add_if_new cleaned_email st)
     emails initial).2.

(** ** The uniqueness counter *)

(** A stored contact document ([contact_doc] of [save_contacts]); [phones]
    is [None] when the document has no such field. *)
Record contact : Type := {
  reference_name : string;
  name : string;
  firstName : string;
  phones : option (list string);
  emails : list string
}.

(** The query [{"phones": {"$exists": True, "$ne": []}}]. *)
Definition has_phones (c : contact) : bool :=
  match phones c with
  | Some (_ :: _) => true
  | _ => false
  end.

(** [contacts_collection.find(query)]: the matching documents, in the
    collection's enumeration order. *)
Definition find (query : contact → bool) (contacts_collection : list contact)
    : list contact :=
  List.filter query contacts_collection.

(** [contact.get("phones", [])]. *)
Definition get_phones (c : contact) : list string := default [] (phones c).

(** [set(contact.get("phones", []))]. *)
Definition phone_set (c : contact) : gset string := list_to_set (get_phones c).

(** One iteration of the loop over [contacts]; the state is
    [(unique_count, all_phones)]. *)
Definition count_step (st : Z * gset string) (c : contact) : Z * gset string :=
  let '(unique_count, all_phones) := st in
  let contact_phones := phone_set c in
  let unique_count :=
    if decide (contact_phones ∩ all_phones = ∅)
    then (unique_count + 1)%Z else unique_count in
  (unique_count, all_phones ∪ contact_phones).

(** The module-level [contacts_collection] is a parameter: the stored
    documents in the order the cursor yields them. *)
Definition get_unique_contacts_count (contacts_collection : list contact)
    : Z * gset string :=
  let contacts := find has_phones contacts_collection in
  fold_left count_step contacts (0%Z, ∅).

(** ** Notions the specification uses *)

(** The loop shared by both clean-up functions once every entry has its
    dedup key: [key x] is tried against [seen] for each entry in order. *)
Definition dedup_loop (key : string → string) (l : list string)
    (st : dedup_state) : dedup_state :=
  fold_left (fun st x => add_if_new (key x) st) l st.

(** The canonical form of an e-mail entry. *)
Definition canonical_email (email : string) : string :=
  PyStr.strip (PyStr.lower email).

(** The canonical form of a phone entry: the international format of the
    parsed number, or the entry itself when [parse] raises. *)
Definition canonical_phone `{PhoneNumbers} (phone : string) : string :=
  match parse phone (region_of phone) with
  | Ok parsed => format_number parsed INTERNATIONAL
  | Raise _ => phone
  end.

(** A phone entry is malformed when [parse] raises on it. *)
Definition malformed `{PhoneNumbers} (phone : string) : Prop :=
  ∃ e, parse phone (region_of phone) = Raise e.

(** A list reduced to the first occurrence of each of its elements, in the
    order of those first occurrences. *)
Fixpoint first_occurrences (l : list string) : list string :=
  match l with
  | [] => []
  | x :: l' => x :: filter (fun y => y ≠ x) (first_occurrences l')
  end.

(** A string of whitespace only (possibly empty). *)
Fixpoint all_space (s : string) : bool :=
  match s with
  | EmptyString => true
  | String c s' => PyStr.isspace c && all_space s'
  end.

(** The entry, leading whitespace apart, starts with [+]. *)
Definition plus_after_whitespace (phone : string) : Prop :=
  ∃ ws rest, all_space ws = true ∧ phone = String.append ws (String "+" rest).

(** A string that does not start with whitespace. *)
Definition head_nonspace (s : string) : Prop :=
  match s with
  | EmptyString => True
  | String c _ => PyStr.isspace c = false
  end.

(** The state both loops keep: [seen] holds exactly the strings of the
    output list, and the output list has no repetition. *)
Definition consistent (st : dedup_state) : Prop :=
  (∀ y, y ∈ st.1 ↔ y ∈ st.2) ∧ NoDup st.2.



(** ** Instances of the [phonenumbers] interface

    [plain] is a small library of its own: numbers are digit strings with
    their country code; [digits_parse] takes an optional [+] and digits
    only, and without [+] it needs the region [IN] and prefixes 91;
    [digits_format sep] writes [+], the two digits of the country code,
    [sep], and the rest.

    [recorded] and [leading_zeros] are tables of what the [phonenumbers]
    package answers on a few entries; a string outside a table is taken as
    unparseable, as the package takes a string without digits. *)
Module Demo.

Definition is_digit (c : ascii) : bool :=
  ((48 <=? N_of_ascii c) && (N_of_ascii c <=? 57))%N.

Fixpoint all_digits (s : string) : bool :=
  match s with
  | EmptyString => true
  | String c s' => is_digit c && all_digits s'
  end.

Definition number_body (s : string) : bool :=
  negb (String.eqb s "") && all_digits s.

Definition digits_parse (s : string) (region : option string) : result string :=
  let t := PyStr.strip s in
  if PyStr.startswith t "+" then
    let d := String.substring 1 (String.length t - 1) t in
    if number_body d then Ok d else Raise (NumberParseException NOT_A_NUMBER)
  else if number_body t then
    if decide (region = Some "IN") then Ok (String.append "91" t)
    else Raise (NumberParseException INVALID_COUNTRY_CODE)
  else Raise (NumberParseException NOT_A_NUMBER).

Definition digits_format (sep : string) (n : string) (_ : PhoneNumberFormat)
    : string :=
  String.append "+"
    (String.append (String.substring 0 2 n)
       (String.append sep (String.substring 2 (String.length n - 2) n))).

Definition plain : PhoneNumbers :=
  {| PhoneNumber := string; parse := digits_parse;
     format_number := digits_format "" |}.









(** A stored contact with the given [phones] field. *)
Definition stored (ps : option (list string)) : contact :=
  {| reference_name := "unknown"; name := "N"; firstName := "F";
     phones := ps; emails := [] |}.

End Demo.

(** ** The ingestion handler [save_contacts]

    The request body is taken in the shape the handler expects: an object
    with an optional [userName] and an optional list [contacts] of objects
    whose [phones] and [emails], when present, are lists of strings. Keys
    the handler never reads are left out. What the handler gets from
    outside is an [environment]: the clock's timestamp and whether each
    storage operation succeeds. *)

(** A contact of the request body; a field is [None] when the object has
    no such key. *)
Record raw_contact : Type := {
  raw_name : option string;
  raw_firstName : option string;
  raw_phones : option (list string);
  raw_emails : option (list string)
}.

(** [contact_data.data]. *)
Record payload : Type := {
  userName : option string;
  contacts : option (list raw_contact)
}.

(** [contact["phones"] = cleanup_phone_numbers(contact.get("phones", []))]
    then [contact["emails"] = cleanup_emails(contact.get("emails", []))]:
    the contact after both assignments. *)
Definition clean_contact `{PhoneNumbers} (contact : raw_contact)
    : result raw_contact :=
  cleaned_phones ← cleanup_phone_numbers (default [] (raw_phones contact)) ;
  let cleaned_emails := cleanup_emails (default [] (raw_emails contact)) in
  Ok {| raw_name := raw_name contact;
        raw_firstName := raw_firstName contact;
        raw_phones := Some cleaned_phones;
        raw_emails := Some cleaned_emails |}.

(** The first loop over [contacts]: every contact is updated in place. *)
Fixpoint clean_contacts `{PhoneNumbers} (contacts : list raw_contact)
    : result (list raw_contact) :=
  match contacts with
  | [] => Ok []
  | contact :: rest =>
      contact' ← clean_contact contact ;
      rest' ← clean_contacts rest ;
      Ok (contact' :: rest')
  end.

(** [contact_doc] of the second loop. Its [_id], a fresh uuid, and its
    [created_at], the clock's time, are read by no function of the module
    and are not fields of [contact]. *)
Definition contact_doc (reference_name : string) (cleaned : raw_contact)
    : contact :=
  {| reference_name := reference_name;
     name := default "" (raw_name cleaned);
     firstName := default "" (raw_firstName cleaned);
     phones := Some (default [] (raw_phones cleaned));
     emails := default [] (raw_emails cleaned) |}.

(** What the handler answers: the success body with its [filename] and
    [data], or [HTTPException] with its status code. *)
Inductive response : Type :=
| Success (filename : string) (data : payload)
| HTTPException (status_code : nat).

(** The outside of one request: [datetime.now().strftime(...)], whether
    [os.makedirs], [open] and [json.dump] all succeed, and whether the
    [i]-th call of [insert_one] succeeds. *)
Record environment : Type := {
  timestamp : string;
  storage_ok : bool;
  insert_ok : nat → bool
}.

(** What one request leaves behind: the collection, the file written if
    any (path and content), whether the [except] branch wrote to
    [error.txt], and the answer. *)
Record outcome : Type := {
  collection_after : list contact;
  written : option (string * payload);
  error_logged : bool;
  reply : response
}.

Definition STORAGE_DIR : string := "contact_storage".

(** [s.endswith(c)] for a single character [c]. *)
Fixpoint ends_with (s : string) (c : ascii) : bool :=
  match s with
  | EmptyString => false
  | String a EmptyString => Ascii.eqb a c
  | String _ s' => ends_with s' c
  end.

(** [os.path.join(a, b)] of [posixpath]. *)
Definition path_join (a b : string) : string :=
  if PyStr.startswith b "/" then b
  else if String.eqb a "" || ends_with a "/" then a +:+ b
  else a +:+ "/" +:+ b.

(** The second loop: [insert_one] for each document in turn, the
    collection growing at its end; the loop stops at the first call that
    raises, and what was inserted before stays. The flag tells whether
    the loop ran to its end. *)
Fixpoint insert_all (insert_ok : nat → bool) (i : nat) (docs : list contact)
    (contacts_collection : list contact) : list contact * bool :=
  match docs with
  | [] => (contacts_collection, true)
  | doc :: docs' =>
      if insert_ok i
      then insert_all insert_ok (S i) docs' (contacts_collection ++ [doc])
      else (contacts_collection, false)
  end.

(** [save_contacts], with the collection it inserts into. *)
Definition save_contacts `{PhoneNumbers} (env : environment) (data : payload)
    (contacts_collection : list contact) : outcome :=
  let failed collection file :=
    {| collection_after := collection; written := file;
       error_logged := true; reply := HTTPException 500 |} in
  let filename := "contacts_" +:+ timestamp env +:+ ".json" in
  match clean_contacts (default [] (contacts data)) with
  | Raise _ => failed contacts_collection None
  | Ok cleaned =>
      let data :=
        {| userName := userName data;
           contacts := (fun _ => cleaned) <$> contacts data |} in
      let reference_name := default "unknown" (userName data) in
      let final_filename :=
        reference_name +:+ "-contacts_" +:+ timestamp env +:+ ".json" in
      let final_path := path_join STORAGE_DIR final_filename in
      if storage_ok env then
        let docs := contact_doc reference_name <$> cleaned in
        match insert_all (insert_ok env) 0 docs contacts_collection with
        | (collection, true) =>
            {| collection_after := collection;
               written := Some (final_path, data);
               error_logged := false;
               reply := Success filename data |}
        | (collection, false) => failed collection (Some (final_path, data))
        end
      else failed contacts_collection None
  end.

(** [file_path] of [read_contacts]: where a file name is looked up. *)
Definition read_path (filename : string) : string :=
  path_join STORAGE_DIR filename.

(** A stored document as [save_contacts] makes them: the [phones] field is
    there and has no repetition; the e-mails are in canonical form and
    have no repetition. *)
Definition well_kept (c : contact) : Prop :=
  (∃ ps, phones c = Some ps ∧ NoDup ps)
  ∧ NoDup (emails c)
  ∧ Forall (fun e => canonical_email e = e) (emails c).

(** The documents [save_contacts] has to insert for a body. *)
Definition contact_docs `{PhoneNumbers} (data : payload) : list contact :=
  match clean_contacts (default [] (contacts data)) with
  | Ok cleaned => contact_doc (default "unknown" (userName data)) <$> cleaned
  | Raise _ => []
  end.

(** A request body for the examples. *)
Definition demo_payload : payload :=
  {| userName := Some "ann";
     contacts := Some
       [ {| raw_name := Some "Bob"; raw_firstName := None;
            raw_phones := Some ["9876543210"; "+919876543210"; "nope"];
            raw_emails := Some ["Bob@X.org"; " bob@x.org "] |};
         {| raw_name := None; raw_firstName := Some "Cy";
            raw_phones := None; raw_emails := None |};
         {| raw_name := Some "Di"; raw_firstName := None;
            raw_phones := Some ["123"]; raw_emails := Some [] |} ] |}.

(** Two environments for the examples: one where everything succeeds,
    one where the second insertion fails. *)
Definition demo_env : environment :=
  {| timestamp := "20240101_101500"; storage_ok := true;
     insert_ok := fun _ => true |}.

Definition demo_env_failing : environment :=
  {| timestamp := "20240101_101501"; storage_ok := true;
     insert_ok := fun i => negb (Nat.eqb i 1) |}.

(** ** [save_contacts] on a body whose entries have any JSON type

    [contact_data.data] is [Any]: the entries of a [phones] or [emails]
    list need not be strings, and a non-string entry makes [phone.strip()]
    or [email.lower()] raise [AttributeError], which the handler's
    [except Exception] answers with status 500. Here the body is an object
    whose [contacts], when present, is a list of objects whose [phones]
    and [emails], when present, are lists of entries of any type; and
    [os.makedirs], [open] and [json.dump] can each fail on their own. *)

(** An entry of a [phones] or [emails] list: a JSON string, or a JSON
    value of another type (number, boolean, null, array, object). *)
Inductive entry : Type :=
| Str (s : string)
| NotStr.

Record request_contact : Type := {
  req_name : option string;
  req_firstName : option string;
  req_phones : option (list entry);
  req_emails : option (list entry)
}.

Record request_body : Type := {
  req_userName : option string;
  req_contacts : option (list request_contact)
}.

(** The strings of a list of entries when all of them are strings: what a
    clean-up loop gets to work on. [None] when some entry is not a string:
    the loop raises [AttributeError] at that entry and the exception
    leaves the clean-up function. *)
Fixpoint entry_strings (l : list entry) : option (list string) :=
  match l with
  | [] => Some []
  | Str s :: l' => cons s <$> entry_strings l'
  | NotStr :: _ => None
  end.

(** The two assignments of the first loop for one contact; [None] when an
    exception is raised. *)
Definition clean_request_contact `{PhoneNumbers} (c : request_contact)
    : option raw_contact :=
  phones ← entry_strings (default [] (req_phones c)) ;
  match cleanup_phone_numbers phones with
  | Raise _ => None
  | Ok cleaned_phones =>
      emails ← entry_strings (default [] (req_emails c)) ;
      Some {| raw_name := req_name c;
              raw_firstName := req_firstName c;
              raw_phones := Some cleaned_phones;
              raw_emails := Some (cleanup_emails emails) |}
  end.

(** The first loop; [None] when an exception leaves it. *)
Fixpoint clean_request_contacts `{PhoneNumbers} (l : list request_contact)
    : option (list raw_contact) :=
  match l with
  | [] => Some []
  | c :: rest =>
      c' ← clean_request_contact c ;
      rest' ← clean_request_contacts rest ;
      Some (c' :: rest')
  end.

(** The outside of one request, each storage operation on its own. *)
Record request_environment : Type := {
  req_timestamp : string;
  makedirs_ok : bool;
  open_ok : bool;
  dump_ok : bool;
  req_insert_ok : nat → bool
}.

(** What one request leaves behind: the collection; the path of the file
    opened for writing, if [open] was reached and succeeded; the file
    written in full, if [json.dump] succeeded; whether the [except] branch
    ran; and the answer. *)
Record request_outcome : Type := {
  stored : list contact;
  file_opened : option string;
  file_written : option (string * payload);
  logged : bool;
  answer : response
}.

(** [save_contacts], statement by statement. *)
Definition save_contacts_request `{PhoneNumbers} (env : request_environment)
    (body : request_body) (contacts_collection : list contact)
    : request_outcome :=
  let failed collection opened written :=
    {| stored := collection; file_opened := opened; file_written := written;
       logged := true; answer := HTTPException 500 |} in
  let filename := "contacts_" +:+ req_timestamp env +:+ ".json" in
  if negb (makedirs_ok env) then failed contacts_collection None None else
  match clean_request_contacts (default [] (req_contacts body)) with
  | None => failed contacts_collection None None
  | Some cleaned =>
      let data :=
        {| userName := req_userName body;
           contacts := (fun _ => cleaned) <$> req_contacts body |} in
      let reference_name := default "unknown" (req_userName body) in
      let final_filename :=
        reference_name +:+ "-contacts_" +:+ req_timestamp env +:+ ".json" in
      let final_path := path_join STORAGE_DIR final_filename in
      if negb (open_ok env) then failed contacts_collection None None else
      if negb (dump_ok env)
      then failed contacts_collection (Some final_path) None else
      let docs := contact_doc reference_name <$> cleaned in
      match insert_all (req_insert_ok env) 0 docs contacts_collection with
      | (collection, true) =>
          {| stored := collection;
             file_opened := Some final_path;
             file_written := Some (final_path, data);
             logged := false;
             answer := Success filename data |}
      | (collection, false) =>
          failed collection (Some final_path) (Some (final_path, data))
      end
  end.

(** The body with its entries read as strings, when all of them are. *)
Definition typed_contact (c : request_contact) : option raw_contact :=
  phones ← (match req_phones c with
            | None => Some None
            | Some l => Some <$> entry_strings l
            end) ;
  emails ← (match req_emails c with
            | None => Some None
            | Some l => Some <$> entry_strings l
            end) ;
  Some {| raw_name := req_name c; raw_firstName := req_firstName c;
          raw_phones := phones; raw_emails := emails |}.

Fixpoint typed_contacts (l : list request_contact)
    : option (list raw_contact) :=
  match l with
  | [] => Some []
  | c :: rest =>
      c' ← typed_contact c ;
      rest' ← typed_contacts rest ;
      Some (c' :: rest')
  end.

Definition typed_body (body : request_body) : option payload :=
  match req_contacts body with
  | None => Some {| userName := req_userName body; contacts := None |}
  | Some l =>
      l' ← typed_contacts l ;
      Some {| userName := req_userName body; contacts := Some l' |}
  end.

(** A body of strings only, and a body with a number among the phones. *)
Definition demo_body : request_body :=
  {| req_userName := Some "ann";
     req_contacts := Some
       [ {| req_name := Some "Bob"; req_firstName := None;
            req_phones := Some [Str "9876543210"; Str "+919876543210"; Str "nope"];
            req_emails := Some [Str "Bob@X.org"; Str " bob@x.org "] |};
         {| req_name := None; req_firstName := Some "Cy";
            req_phones := None; req_emails := None |} ] |}.

Definition demo_body_typed : payload :=
  {| userName := Some "ann";
     contacts := Some
       [ {| raw_name := Some "Bob"; raw_firstName := None;
            raw_phones := Some ["9876543210"; "+919876543210"; "nope"];
            raw_emails := Some ["Bob@X.org"; " bob@x.org "] |};
         {| raw_name := None; raw_firstName := Some "Cy";
            raw_phones := None; raw_emails := None |} ] |}.

Definition demo_body_number : request_body :=
  {| req_userName := None;
     req_contacts := Some
       [ {| req_name := None; req_firstName := None;
            req_phones := Some [NotStr]; req_emails := None |} ] |}.

Definition demo_request_env : request_environment :=
  {| req_timestamp := "20240101_101500"; makedirs_ok := true; open_ok := true;
     dump_ok := true; req_insert_ok := fun _ => true |}.

Definition demo_request_env_failing : request_environment :=
  {| req_timestamp := "20240101_101501"; makedirs_ok := true; open_ok := true;
     dump_ok := true; req_insert_ok := fun i => negb (Nat.eqb i 1) |}.

(** * Properties *)

(** ** The dedup loop *)

Lemma consistent_initial : consistent initial.
Proof.
  split; [|constructor]. intros y; cbn. set_solver.
Qed.

Section DedupLoop.
Variable key : string → string.

Lemma add_if_new_consistent x st :
  consistent st → consistent (add_if_new x st).
Proof.
  intros [Hseen Hnd]. unfold add_if_new.
  destruct (decide (x ∈ st.1)) as [Hin|Hin]; [by split|].
  split; cbn.
  - intros y. rewrite elem_of_union, elem_of_singleton, elem_of_app,
      list_elem_of_singleton, Hseen. tauto.
  - apply NoDup_app. split_and!; [done| |apply NoDup_singleton].
    intros y Hy ->%list_elem_of_singleton. by apply Hin, Hseen.
Qed.


Lemma dedup_loop_cons l x st :
  dedup_loop key (x :: l) st = dedup_loop key l (add_if_new (key x) st).
Proof. done. Qed.

Lemma dedup_loop_consistent l st :
  consistent st → consistent (dedup_loop key l st).
Proof.
  revert st. induction l as [|x l IH]; intros st Hst; [done|].
  rewrite dedup_loop_cons. by apply IH, add_if_new_consistent.
Qed.

Lemma add_if_new_elem x st y :
  consistent st → y ∈ (add_if_new x st).2 ↔ y ∈ st.2 ∨ y = x.
Proof.
  intros [Hseen _]. unfold add_if_new.
  destruct (decide (x ∈ st.1)) as [Hin|Hin]; cbn.
  - split; [by left|]. intros [?| ->]; [done|]. by apply Hseen.
  - by rewrite elem_of_app, list_elem_of_singleton.
Qed.

Lemma dedup_loop_elem l st y :
  consistent st →
  y ∈ (dedup_loop key l st).2 ↔ y ∈ st.2 ∨ y ∈ key <$> l.
Proof.
  revert st. induction l as [|x l IH]; intros st Hst.
  - cbn. rewrite elem_of_nil. tauto.
  - rewrite dedup_loop_cons, IH by by apply add_if_new_consistent.
    rewrite add_if_new_elem by done. rewrite fmap_cons, elem_of_cons. tauto.
Qed.

(** The output is the old output followed by the first occurrences of the
    keys that were not in it. *)
Lemma dedup_loop_first_occurrences l st :
  consistent st →
  (dedup_loop key l st).2
  = st.2 ++ filter (fun y => y ∉ st.2) (first_occurrences (key <$> l)).
Proof.
  revert st. induction l as [|x l IH]; intros st Hst.
  - cbn. by rewrite app_nil_r.
  - rewrite dedup_loop_cons, IH by by apply add_if_new_consistent.
    destruct Hst as [Hseen Hnd]. unfold add_if_new.
    rewrite fmap_cons. cbn [first_occurrences].
    destruct (decide (key x ∈ st.1)) as [Hin|Hin]; cbn [fst snd].
    + rewrite filter_cons_False by (intros Hn; by apply Hn, Hseen).
      f_equal. rewrite list_filter_filter. apply list_filter_iff.
      intros y. split; [|tauto]. intros Hy. split; [done|].
      intros ->. by apply Hy, Hseen.
    + rewrite filter_cons_True by (intros Hn; by apply Hin, Hseen).
      rewrite <- app_assoc. cbn. do 2 f_equal.
      rewrite list_filter_filter. apply list_filter_iff.
      intros y. rewrite elem_of_app, list_elem_of_singleton. tauto.
Qed.

End DedupLoop.

(** ** First occurrences *)

Lemma filter_all (P : string → Prop) `{∀ y, Decision (P y)} (l : list string) :
  (∀ y, y ∈ l → P y) → filter P l = l.
Proof.
  induction l as [|x l IH]; intros HP; [done|].
  rewrite filter_cons_True by (apply HP; left).
  f_equal. apply IH. intros y Hy. apply HP. by right.
Qed.

Lemma dedup_loop_initial key l :
  (dedup_loop key l initial).2 = first_occurrences (key <$> l).
Proof.
  rewrite (dedup_loop_first_occurrences key l initial consistent_initial).
  cbn. apply filter_all. intros y _. apply not_elem_of_nil.
Qed.

Lemma elem_of_first_occurrences l y : y ∈ first_occurrences l ↔ y ∈ l.
Proof.
  induction l as [|x l IH]; [done|]. cbn.
  rewrite !elem_of_cons, list_elem_of_filter, IH.
  destruct (decide (y = x)); tauto.
Qed.

Lemma NoDup_first_occurrences l : NoDup (first_occurrences l).
Proof.
  induction l as [|x l IH]; cbn; constructor.
  - rewrite list_elem_of_filter. tauto.
  - by apply NoDup_filter.
Qed.

Lemma first_occurrences_NoDup l : NoDup l → first_occurrences l = l.
Proof.
  induction 1 as [|x l Hx Hl IH]; [done|]. cbn. rewrite IH. f_equal.
  apply filter_all. intros y Hy ->. done.
Qed.

Lemma first_occurrences_idemp l :
  first_occurrences (first_occurrences l) = first_occurrences l.
Proof. apply first_occurrences_NoDup, NoDup_first_occurrences. Qed.


Lemma fmap_fixed (f : string → string) (l : list string) :
  Forall (fun x => f x = x) l → f <$> l = l.
Proof. induction 1 as [|x l Hx _ IH]; [done|]. cbn. by rewrite Hx, IH. Qed.

(** ** The phone loop never raises *)

Section PhoneLoop.
Context `{PhoneNumbers}.

Lemma loop_body_ok phone st :
  loop_body phone st = Ok (add_if_new (canonical_phone phone) st).
Proof.
  unfold loop_body, try_block, canonical_phone.
  destruct (parse phone (region_of phone)) as [n|[e]]; done.
Qed.

Lemma for_each_loop_body l st :
  for_each loop_body l st = Ok (dedup_loop canonical_phone l st).
Proof.
  revert st. induction l as [|x l IH]; intros st; [done|].
  cbn [for_each]. rewrite loop_body_ok. cbn. apply IH.
Qed.

Lemma cleanup_phone_numbers_ok l :
  cleanup_phone_numbers l = Ok (first_occurrences (canonical_phone <$> l)).
Proof.
  unfold cleanup_phone_numbers. rewrite for_each_loop_body. cbn.
  by rewrite dedup_loop_initial.
Qed.

Lemma canonical_phone_malformed phone :
  malformed phone → canonical_phone phone = phone.
Proof. intros [e He]. unfold canonical_phone. by rewrite He. Qed.

End PhoneLoop.

Lemma cleanup_emails_first_occurrences l :
  cleanup_emails l = first_occurrences (canonical_email <$> l).
Proof. rewrite <- dedup_loop_initial. done. Qed.

(** ** [lower] and [strip] *)

Lemma isspace_lower_char c : PyStr.isspace (PyStr.lower_char c) = PyStr.isspace c.
Proof. destruct c as [[] [] [] [] [] [] [] []]; reflexivity. Qed.

Lemma lower_char_idemp c :
  PyStr.lower_char (PyStr.lower_char c) = PyStr.lower_char c.
Proof. destruct c as [[] [] [] [] [] [] [] []]; reflexivity. Qed.

Lemma lower_idemp s : PyStr.lower (PyStr.lower s) = PyStr.lower s.
Proof. induction s as [|c s IH]; cbn; [done|]. by rewrite lower_char_idemp, IH. Qed.

Lemma lstrip_lower s : PyStr.lstrip (PyStr.lower s) = PyStr.lower (PyStr.lstrip s).
Proof.
  induction s as [|c s IH]; cbn; [done|].
  rewrite isspace_lower_char. by destruct (PyStr.isspace c).
Qed.

Lemma rstrip_lower s : PyStr.rstrip (PyStr.lower s) = PyStr.lower (PyStr.rstrip s).
Proof.
  induction s as [|c s IH]; cbn; [done|].
  rewrite IH, isspace_lower_char.
  destruct (PyStr.rstrip s); cbn; [by destruct (PyStr.isspace c)|done].
Qed.

Lemma strip_lower s : PyStr.strip (PyStr.lower s) = PyStr.lower (PyStr.strip s).
Proof. unfold PyStr.strip. by rewrite lstrip_lower, rstrip_lower. Qed.

Lemma lstrip_head_nonspace s : head_nonspace (PyStr.lstrip s).
Proof.
  induction s as [|c s IH]; cbn; [done|].
  destruct (PyStr.isspace c) eqn:Hc; [done|]. exact Hc.
Qed.

Lemma lstrip_fixed s : head_nonspace s → PyStr.lstrip s = s.
Proof. destruct s as [|c s]; cbn; [done|]. by intros ->. Qed.

(** [rstrip] keeps the first character of a string that does not start
    with whitespace. *)
Lemma rstrip_head c s :
  PyStr.isspace c = false → ∃ r, PyStr.rstrip (String c s) = String c r.
Proof. intros Hc. cbn. rewrite Hc. destruct (PyStr.rstrip s); eauto. Qed.

Lemma rstrip_head_nonspace s : head_nonspace s → head_nonspace (PyStr.rstrip s).
Proof.
  destruct s as [|c s]; [done|]. intros Hc.
  destruct (rstrip_head c s Hc) as [r ->]. exact Hc.
Qed.

Lemma rstrip_idemp s : PyStr.rstrip (PyStr.rstrip s) = PyStr.rstrip s.
Proof.
  induction s as [|c s IH]; cbn; [done|].
  destruct (PyStr.rstrip s) as [|c' r] eqn:Hr.
  - destruct (PyStr.isspace c) eqn:Hc; cbn; [done|]. by rewrite Hc.
  - cbn. cbn in IH. by rewrite IH.
Qed.

Lemma strip_idemp s : PyStr.strip (PyStr.strip s) = PyStr.strip s.
Proof.
  unfold PyStr.strip.
  rewrite (lstrip_fixed (PyStr.rstrip _))
    by apply rstrip_head_nonspace, lstrip_head_nonspace.
  apply rstrip_idemp.
Qed.

Lemma canonical_email_idemp e :
  canonical_email (canonical_email e) = canonical_email e.
Proof.
  unfold canonical_email.
  by rewrite (strip_lower e), lower_idemp, strip_lower, strip_idemp.
Qed.

(** Leading whitespace is what [lstrip] removes. *)
Lemma lstrip_all_space ws s :
  all_space ws = true → PyStr.lstrip (String.append ws s) = PyStr.lstrip s.
Proof.
  induction ws as [|c ws IH]; cbn; [done|].
  intros [Hc Hws]%andb_prop.
  change (String c ws +:+ s) with (String c (ws +:+ s)).
  cbn. rewrite Hc. by apply IH.
Qed.

Lemma lstrip_split s :
  ∃ ws, all_space ws = true ∧ s = String.append ws (PyStr.lstrip s).
Proof.
  induction s as [|c s (ws & Hws & IH)]; cbn.
  - by exists EmptyString.
  - destruct (PyStr.isspace c) eqn:Hc.
    + exists (String c ws). cbn. rewrite Hc, Hws. split; [done|].
      change (String c ws +:+ PyStr.lstrip s) with (String c (ws +:+ PyStr.lstrip s)).
      by rewrite <- IH.
    + by exists EmptyString.
Qed.

Lemma rstrip_split s :
  ∃ ws, all_space ws = true ∧ s = String.append (PyStr.rstrip s) ws.
Proof.
  induction s as [|c s (ws & Hws & IH)]; [by exists EmptyString|].
  cbn [PyStr.rstrip]. destruct (PyStr.rstrip s) as [|c' r].
  - cbn in IH. subst s. destruct (PyStr.isspace c) eqn:Hc.
    + exists (String c ws). cbn. by rewrite Hc, Hws.
    + by exists ws.
  - exists ws. split; [done|]. by rewrite IH at 1.
Qed.

(** [strip] removes whitespace at both ends and nothing else. *)
Lemma strip_split s :
  ∃ ws1 ws2, all_space ws1 = true ∧ all_space ws2 = true
             ∧ s = String.append ws1 (String.append (PyStr.strip s) ws2).
Proof.
  destruct (lstrip_split s) as (ws1 & Hws1 & Hs).
  destruct (rstrip_split (PyStr.lstrip s)) as (ws2 & Hws2 & Hl).
  exists ws1, ws2. split_and!; [done..|]. unfold PyStr.strip. by rewrite <- Hl.
Qed.

Lemma rstrip_first c r s : PyStr.rstrip s = String c r → ∃ s', s = String c s'.
Proof.
  destruct s as [|c' s]; cbn; [done|].
  destruct (PyStr.rstrip s); [destruct (PyStr.isspace c')|]; intros [= <- _]; eauto.
Qed.

Lemma startswith_plus s :
  PyStr.startswith s "+" = true ↔ ∃ r, s = String "+" r.
Proof.
  destruct s as [|c s].
  - cbn. split; [done|]. by intros [r ?].
  - change (PyStr.startswith (String c s) "+") with (Ascii.eqb "+" c && true).
    rewrite andb_true_r, Ascii.eqb_eq. split.
    + intros <-. by eexists.
    + by intros [r [= <- _]].
Qed.

Lemma region_of_None phone :
  region_of phone = None ↔ plus_after_whitespace phone.
Proof.
  unfold region_of, plus_after_whitespace.
  destruct (PyStr.startswith (PyStr.strip phone) "+") eqn:Hs.
  - split; [intros _|done].
    apply startswith_plus in Hs as [r Hr]. unfold PyStr.strip in Hr.
    apply rstrip_first in Hr as [s' Hs'].
    destruct (lstrip_split phone) as (ws & Hws & Hphone).
    exists ws, s'. by rewrite <- Hs'.
  - split; [done|]. intros (ws & rest & Hws & ->). exfalso.
    apply not_true_iff_false in Hs. apply Hs, startswith_plus.
    unfold PyStr.strip. rewrite lstrip_all_space by done.
    cbn [PyStr.lstrip]. change (PyStr.isspace "+") with false. cbn iota.
    by apply rstrip_head.
Qed.

Lemma region_of_cases phone :
  region_of phone = None ∨ region_of phone = Some "IN".
Proof. unfold region_of. destruct (PyStr.startswith _ _); eauto. Qed.

(** ** The uniqueness counter *)

Lemma has_phones_get_phones c : has_phones c = bool_decide (get_phones c ≠ []).
Proof. unfold has_phones, get_phones. by destruct (phones c) as [[|p l]|]. Qed.

Lemma find_has_phones coll :
  find has_phones coll = filter (fun c => get_phones c ≠ []) coll.
Proof.
  induction coll as [|c coll IH]; [done|]. cbn [find List.filter].
  rewrite filter_cons, has_phones_get_phones. fold (find has_phones coll).
  rewrite IH. destruct (decide (get_phones c ≠ [])) as [Hc|Hc].
  - by rewrite bool_decide_eq_true_2.
  - by rewrite bool_decide_eq_false_2.
Qed.

Lemma find_app q l1 l2 : find q (l1 ++ l2) = find q l1 ++ find q l2.
Proof. apply List.filter_app. Qed.

Lemma find_skip c pre post :
  has_phones c = false →
  find has_phones (pre ++ c :: post) = find has_phones (pre ++ post).
Proof. intros Hc. rewrite !find_app. cbn. by rewrite Hc. Qed.

Lemma count_step_fst st c :
  ((count_step st c).1 = st.1 ∨ (count_step st c).1 = st.1 + 1)%Z.
Proof. destruct st as [n S]. cbn. case_decide; auto. Qed.

Lemma count_step_snd st c : (count_step st c).2 = st.2 ∪ phone_set c.
Proof. by destruct st. Qed.

Lemma count_loop_bounds l st :
  (st.1 ≤ (fold_left count_step l st).1 ≤ st.1 + Z.of_nat (length l))%Z.
Proof.
  revert st. induction l as [|c l IH]; intros st; cbn [fold_left length].
  - lia.
  - specialize (IH (count_step st c)).
    destruct (count_step_fst st c) as [Hn|Hn]; rewrite Hn in IH; lia.
Qed.

Lemma count_loop_all_phones l st :
  (fold_left count_step l st).2 = st.2 ∪ ⋃ (phone_set <$> l).
Proof.
  revert st. induction l as [|c l IH]; intros st; cbn [fold_left].
  - cbn. set_solver.
  - rewrite IH, count_step_snd. cbn. set_solver.
Qed.

Lemma count_step_initial c :
  count_step (0%Z, ∅) c = (1%Z, phone_set c).
Proof.
  cbn. rewrite decide_True by set_solver. f_equal. set_solver.
Qed.

(** ** The model at work *)

(** The specification's scenarios 1 and 3, with [Demo.plain] for the
    library. *)
Example cleanup_phone_numbers_same_number :
  cleanup_phone_numbers (H:=Demo.plain)
    ["9876543210"; "+919876543210"; "9876543210"]
  = Ok ["+919876543210"].
Proof. vm_compute. reflexivity. Qed.

Example cleanup_phone_numbers_not_a_number :
  cleanup_phone_numbers (H:=Demo.plain) ["not-a-number"; "not-a-number"; "123"]
  = Ok ["not-a-number"; "+91123"].
Proof. vm_compute. reflexivity. Qed.

(** Scenario 5: the corpus of scenario 4 in the reverse order. *)
Example get_unique_contacts_count_reordered :
  (get_unique_contacts_count
     [Demo.stored (Some ["C"]); Demo.stored (Some ["A"; "B"]);
      Demo.stored (Some ["A"])]).1 = 2%Z.
Proof. vm_compute. reflexivity. Qed.

(** Without the query's filter a contact with no phone would be counted:
    the empty set meets nothing. *)
Example count_step_no_phones :
  count_step (1%Z, {["A"]}) (Demo.stored (Some [])) = (2%Z, {["A"]} ∪ ∅).
Proof. vm_compute. reflexivity. Qed.

(** * The claims *)

(** C1. Appending a contact [c] with phones to a collection adds one to the
    count exactly when the set of [c]'s phones does not meet the phones of
    the contacts processed before it, and the accumulated set becomes the
    union of the two whatever the test said. For three contacts with phones
    [A], [A; B] and [C], pairwise distinct, the result is 2 and {A, B, C}. *)
Theorem get_unique_contacts_count_rule :
  (∀ (coll : list contact) (c : contact),
     has_phones c = true →
     get_unique_contacts_count (coll ++ [c]) =
       let n := (get_unique_contacts_count coll).1 in
       let previous := ⋃ (phone_set <$> find has_phones coll) in
       ((if decide (phone_set c ∩ previous = ∅) then n + 1 else n)%Z,
        previous ∪ phone_set c))
  ∧ (∀ (A B C : string) (c1 c2 c3 : contact),
       A ≠ B → A ≠ C → B ≠ C →
       phones c1 = Some [A] → phones c2 = Some [A; B] → phones c3 = Some [C] →
       get_unique_contacts_count [c1; c2; c3] = (2%Z, {[A; B; C]})).
Proof.
  split.
  - intros coll c Hc. unfold get_unique_contacts_count.
    rewrite find_app. cbn [find List.filter]. rewrite Hc.
    rewrite fold_left_app. cbn [fold_left].
    pose proof (count_loop_all_phones (List.filter has_phones coll) (0%Z, ∅)) as Hall.
    destruct (fold_left count_step _ _) as [n all]. cbn [fst snd] in *.
    rewrite (left_id_L ∅ (∪)) in Hall. subst all. reflexivity.
  - intros A B C c1 c2 c3 HAB HAC HBC H1 H2 H3.
    unfold get_unique_contacts_count, find. cbn [List.filter].
    unfold has_phones. rewrite H1, H2, H3. cbn [fold_left].
    rewrite count_step_initial. unfold count_step, phone_set, get_phones.
    rewrite H1, H2, H3. cbn [default list_to_set].
    repeat case_decide; first [ f_equal; set_solver | exfalso; set_solver ].
Qed.

Lemma get_unique_contacts_count_rule_witness :
  get_unique_contacts_count
    ([Demo.stored (Some ["A"])] ++ [Demo.stored (Some ["A"; "B"])])
  = (1%Z, {["A"]} ∪ {["A"; "B"]})
  ∧ get_unique_contacts_count
      [Demo.stored (Some ["A"]); Demo.stored (Some ["A"; "B"]);
       Demo.stored (Some ["C"])]
    = (2%Z, {["A"; "B"; "C"]}).
Proof.
  split.
  - rewrite (proj1 get_unique_contacts_count_rule
               [Demo.stored (Some ["A"])] (Demo.stored (Some ["A"; "B"])) eq_refl).
    vm_compute. reflexivity.
  - apply (proj2 get_unique_contacts_count_rule "A" "B" "C"); done.
Defined.



(** C3. [cleanup_phone_numbers] returns a list for every input and raises
    nothing: the loop runs over the whole list from any state, every entry
    has its canonical form in the output, and an entry on which [parse]
    raises is handled by the [except] branch with the entry itself as its
    canonical form. *)
Theorem cleanup_phone_numbers_total `{PhoneNumbers} (l : list string) :
  ∃ out,
    cleanup_phone_numbers l = Ok out
    ∧ (∀ st, ∃ st', for_each loop_body l st = Ok st')
    ∧ (∀ y, y ∈ out ↔ ∃ p, p ∈ l ∧ y = canonical_phone p)
    ∧ (∀ p st, malformed p → loop_body p st = Ok (add_if_new p st))
    ∧ (∀ p, p ∈ l → malformed p → p ∈ out).
Proof.
  eexists. split_and!; [apply cleanup_phone_numbers_ok|..].
  - intros st. eexists. apply for_each_loop_body.
  - intros y. rewrite elem_of_first_occurrences, list_elem_of_fmap. naive_solver.
  - intros p st Hp. by rewrite loop_body_ok, canonical_phone_malformed.
  - intros p Hp Hm. rewrite elem_of_first_occurrences, list_elem_of_fmap.
    exists p. by rewrite canonical_phone_malformed.
Qed.



(** C5. The count lies between 0 and the number of contacts with at least
    one phone number, and a contact without a phone number changes neither
    the count nor the accumulated set. *)
Theorem unique_count_bounds (coll : list contact) :
  (0 ≤ (get_unique_contacts_count coll).1
     ≤ Z.of_nat (length (filter (fun c => get_phones c ≠ []) coll)))%Z
  ∧ ∀ pre c post,
      coll = pre ++ c :: post → get_phones c = [] →
      get_unique_contacts_count coll = get_unique_contacts_count (pre ++ post).
Proof.
  split.
  - unfold get_unique_contacts_count.
    pose proof (count_loop_bounds (find has_phones coll) (0%Z, ∅)) as Hb.
    cbn [fst] in Hb.
    rewrite <- find_has_phones. cbn zeta. lia.
  - intros pre c post -> Hc. unfold get_unique_contacts_count.
    rewrite find_skip; [done|].
    rewrite has_phones_get_phones. apply bool_decide_eq_false_2.
    intros Hn. by apply Hn.
Qed.

Lemma unique_count_bounds_witness :
  (0 ≤ (get_unique_contacts_count
          [Demo.stored (Some ["A"]); Demo.stored (Some []); Demo.stored None;
           Demo.stored (Some ["A"; "B"])]).1 ≤ 2)%Z
  ∧ get_unique_contacts_count
      ([Demo.stored (Some ["A"])] ++ Demo.stored (Some []) :: [Demo.stored (Some ["B"])])
    = get_unique_contacts_count
        ([Demo.stored (Some ["A"])] ++ [Demo.stored (Some ["B"])]).
Proof.
  split.
  - exact (proj1 (unique_count_bounds
                    [Demo.stored (Some ["A"]); Demo.stored (Some []);
                     Demo.stored None; Demo.stored (Some ["A"; "B"])])).
  - exact (proj2 (unique_count_bounds _)
             [Demo.stored (Some ["A"])] (Demo.stored (Some []))
             [Demo.stored (Some ["B"])] eq_refl eq_refl).
Defined.

(** C6. When the entry, leading whitespace apart, starts with [+], the
    parser is called on the entry with no region; otherwise it is called
    with the region [IN]. *)
Theorem region_hint_rule `{PhoneNumbers} (phone : string) (st : dedup_state) :
  (plus_after_whitespace phone →
   region_of phone = None
   ∧ try_block phone st
     = (parsed ← parse phone None;
        Ok (add_if_new (format_number parsed INTERNATIONAL) st)))
  ∧ (¬ plus_after_whitespace phone →
     region_of phone = Some "IN"
     ∧ try_block phone st
       = (parsed ← parse phone (Some "IN");
          Ok (add_if_new (format_number parsed INTERNATIONAL) st))).
Proof.
  split; intros Hplus.
  - apply region_of_None in Hplus. unfold try_block. by rewrite Hplus.
  - assert (region_of phone = Some "IN") as Hr.
    { destruct (region_of_cases phone) as [Hn|Hr]; [|done].
      by apply region_of_None in Hn. }
    unfold try_block. by rewrite Hr.
Qed.

Lemma region_hint_rule_witness :
  (region_of "  +919876543210" = None
   ∧ try_block (H:=Demo.plain) "  +919876543210" initial
     = (parsed ← parse (PhoneNumbers:=Demo.plain) "  +919876543210" None;
        Ok (add_if_new (format_number parsed INTERNATIONAL) initial)))
  ∧ (region_of "98765 +43210" = Some "IN"
     ∧ try_block (H:=Demo.plain) "98765 +43210" initial
       = (parsed ← parse (PhoneNumbers:=Demo.plain) "98765 +43210" (Some "IN");
          Ok (add_if_new (format_number parsed INTERNATIONAL) initial))).
Proof.
  split.
  - apply (proj1 (region_hint_rule (H:=Demo.plain) "  +919876543210" initial)).
    by exists "  ", "919876543210".
  - apply (proj2 (region_hint_rule (H:=Demo.plain) "98765 +43210" initial)).
    by intros [=]%region_of_None.
Defined.

(** C7. [cleanup_emails] gives the first occurrences of the entries'
    canonical forms, the canonical form of an entry being its lower-case
    form without the whitespace at both ends; no entry is rejected: every
    entry has its canonical form in the output. The specification's example
    evaluates as stated. *)
Theorem cleanup_emails_canonical :
  (∀ l, cleanup_emails l
        = first_occurrences ((fun e => PyStr.strip (PyStr.lower e)) <$> l))
  ∧ (∀ e, ∃ ws1 ws2,
       all_space ws1 = true ∧ all_space ws2 = true
       ∧ PyStr.lower e
         = String.append ws1 (String.append (canonical_email e) ws2)
       ∧ PyStr.lstrip (canonical_email e) = canonical_email e
       ∧ PyStr.rstrip (canonical_email e) = canonical_email e)
  ∧ (∀ l y, y ∈ cleanup_emails l ↔ ∃ e, e ∈ l ∧ y = canonical_email e)
  ∧ cleanup_emails ["A@B.com"; " a@b.com "; "c@d.com"] = ["a@b.com"; "c@d.com"].
Proof.
  split_and!.
  - apply cleanup_emails_first_occurrences.
  - intros e. destruct (strip_split (PyStr.lower e)) as (ws1 & ws2 & H1 & H2 & He).
    exists ws1, ws2. split_and!; [done..| |].
    + apply lstrip_fixed, rstrip_head_nonspace, lstrip_head_nonspace.
    + apply rstrip_idemp.
  - intros l y.
    rewrite cleanup_emails_first_occurrences, elem_of_first_occurrences,
      list_elem_of_fmap. naive_solver.
  - vm_compute. reflexivity.
Qed.

(** C8. On a list whose elements are each left unchanged by the clean-up,
    cleaning the cleaned list again gives the same list. *)
Theorem cleanup_phone_numbers_fixed_point `{PhoneNumbers} (x : list string) :
  Forall (fun p => cleanup_phone_numbers [p] = Ok [p]) x →
  ∃ out, cleanup_phone_numbers x = Ok out ∧ cleanup_phone_numbers out = Ok out.
Proof.
  intros Hx.
  assert (Forall (fun p => canonical_phone p = p) x) as Hfix.
  { eapply Forall_impl; [exact Hx|]. intros p Hp. cbv beta in Hp.
    rewrite cleanup_phone_numbers_ok in Hp. by injection Hp. }
  eexists. split; [apply cleanup_phone_numbers_ok|].
  rewrite cleanup_phone_numbers_ok. f_equal.
  rewrite (fmap_fixed _ x Hfix), (fmap_fixed _ (first_occurrences x)).
  - apply first_occurrences_idemp.
  - rewrite Forall_forall in *. intros p Hp. apply Hfix.
    by apply elem_of_first_occurrences.
Qed.

Lemma cleanup_phone_numbers_fixed_point_witness :
  ∃ out,
    cleanup_phone_numbers (H:=Demo.plain)
      ["+919876543210"; "not-a-number"; "+919876543210"] = Ok out
    ∧ cleanup_phone_numbers (H:=Demo.plain) out = Ok out.
Proof.
  apply (cleanup_phone_numbers_fixed_point (H:=Demo.plain)).
  repeat constructor; vm_compute; reflexivity.
Defined.

(** C9. When some contact has a phone number, the count is at least one:
    the first such contact is counted, the accumulated set being empty when
    it is tested, and the loop goes on from the count 1. *)
Theorem first_contact_counted (coll : list contact) :
  find has_phones coll ≠ [] →
  (1 ≤ (get_unique_contacts_count coll).1)%Z
  ∧ ∃ c rest,
      find has_phones coll = c :: rest
      ∧ get_unique_contacts_count coll
        = fold_left count_step rest (1%Z, phone_set c).
Proof.
  intros Hne. unfold get_unique_contacts_count. cbn zeta.
  destruct (find has_phones coll) as [|c rest]; [done|].
  cbn [fold_left]. rewrite count_step_initial. split; [|by eauto].
  pose proof (count_loop_bounds rest (1%Z, phone_set c)) as Hb.
  cbn [fst] in Hb. lia.
Qed.

Lemma first_contact_counted_witness :
  (1 ≤ (get_unique_contacts_count
          [Demo.stored None; Demo.stored (Some ["A"]);
           Demo.stored (Some ["A"])]).1)%Z
  ∧ ∃ c rest,
      find has_phones
        [Demo.stored None; Demo.stored (Some ["A"]); Demo.stored (Some ["A"])]
      = c :: rest
      ∧ get_unique_contacts_count
          [Demo.stored None; Demo.stored (Some ["A"]); Demo.stored (Some ["A"])]
        = fold_left count_step rest (1%Z, phone_set c).
Proof.
  apply first_contact_counted. vm_compute. discriminate.
Defined.

(** C10. Cleaning a cleaned e-mail list changes nothing, for every input:
    every element of the output is in lower case, has no whitespace at
    either end, and occurs once. *)
Theorem cleanup_emails_idempotent (x : list string) :
  cleanup_emails (cleanup_emails x) = cleanup_emails x
  ∧ Forall (fun e => PyStr.lower e = e ∧ PyStr.strip e = e) (cleanup_emails x)
  ∧ NoDup (cleanup_emails x).
Proof.
  assert (∀ e, e ∈ cleanup_emails x → ∃ e', e = canonical_email e') as Hcan.
  { intros e. rewrite cleanup_emails_first_occurrences,
      elem_of_first_occurrences, list_elem_of_fmap. naive_solver. }
  split_and!.
  - rewrite (cleanup_emails_first_occurrences (cleanup_emails x)).
    rewrite fmap_fixed.
    + rewrite cleanup_emails_first_occurrences. apply first_occurrences_idemp.
    + apply Forall_forall. intros e (e' & ->)%Hcan. apply canonical_email_idemp.
  - apply Forall_forall. intros e (e' & ->)%Hcan. unfold canonical_email. split.
    + by rewrite strip_lower, lower_idemp.
    + apply strip_idemp.
  - rewrite cleanup_emails_first_occurrences. apply NoDup_first_occurrences.
Qed.


(** * Further properties of the code *)

(** ** The uniqueness counter, over whole collections *)

Lemma get_unique_contacts_count_app l1 l2 :
  get_unique_contacts_count (l1 ++ l2)
  = fold_left count_step (find has_phones l2) (get_unique_contacts_count l1).
Proof. unfold get_unique_contacts_count. by rewrite find_app, fold_left_app. Qed.

Lemma elem_of_phone_set c p : p ∈ phone_set c ↔ p ∈ get_phones c.
Proof. apply elem_of_list_to_set. Qed.

Lemma has_phones_true c : has_phones c = true ↔ get_phones c ≠ [].
Proof. by rewrite has_phones_get_phones, bool_decide_eq_true. Qed.

Lemma has_phones_elem c : has_phones c = true → ∃ p, p ∈ get_phones c.
Proof.
  rewrite has_phones_true. destruct (get_phones c) as [|p l]; [done|].
  intros _. exists p. by left.
Qed.

Lemma elem_of_find c l : c ∈ find has_phones l ↔ c ∈ l ∧ has_phones c = true.
Proof.
  rewrite find_has_phones, list_elem_of_filter, has_phones_true. tauto.
Qed.

Lemma all_phones_elem l p :
  p ∈ (get_unique_contacts_count l).2 ↔ ∃ c, c ∈ l ∧ p ∈ get_phones c.
Proof.
  unfold get_unique_contacts_count. rewrite count_loop_all_phones. cbn [snd].
  rewrite elem_of_union, elem_of_union_list. split.
  - intros [Hp|(X & HX & Hp)]; [by apply not_elem_of_empty in Hp|].
    apply list_elem_of_fmap in HX as (c & -> & [Hc _]%elem_of_find).
    exists c. by rewrite <- elem_of_phone_set.
  - intros (c & Hc & Hp). right. exists (phone_set c).
    split; [|by apply elem_of_phone_set].
    apply list_elem_of_fmap. exists c. split; [done|]. apply elem_of_find.
    split; [done|]. apply has_phones_true. intros E. rewrite E in Hp.
    by apply elem_of_nil in Hp.
Qed.

Lemma count_loop_size l n (acc : gset string) :
  Forall (fun c => has_phones c = true) l →
  (n ≤ Z.of_nat (size acc))%Z →
  ((fold_left count_step l (n, acc)).1
   ≤ Z.of_nat (size (fold_left count_step l (n, acc)).2))%Z.
Proof.
  intros Hl. revert n acc. induction Hl as [|c l Hc _ IH]; intros n acc Hn; [done|].
  cbn [fold_left]. unfold count_step at 2 4. cbn zeta.
  destruct (decide (phone_set c ∩ acc = ∅)) as [Hd|Hd]; apply IH.
  - rewrite size_union by (apply disjoint_intersection_L; set_solver).
    destruct (has_phones_elem c Hc) as [p Hp%elem_of_phone_set].
    assert (size (phone_set c) ≠ 0); [|lia].
    apply size_non_empty_iff. intros E. rewrite E in Hp.
    by apply not_elem_of_empty in Hp.
  - pose proof (subseteq_size acc (acc ∪ phone_set c)) as Hs.
    assert (acc ⊆ acc ∪ phone_set c) as Hsub by set_solver. specialize (Hs Hsub). lia.
Qed.

Lemma count_loop_known l n (acc : gset string) :
  Forall (fun c => phone_set c ⊆ acc) l →
  fold_left count_step (find has_phones l) (n, acc) = (n, acc).
Proof.
  induction 1 as [|c l Hc _ IH]; [done|]. cbn [find List.filter].
  destruct (has_phones c) eqn:Hp; [|exact IH]. cbn [fold_left].
  replace (count_step (n, acc) c) with (n, acc); [exact IH|].
  cbn. destruct (has_phones_elem c Hp) as [p Hin%elem_of_phone_set].
  rewrite decide_False by set_solver. f_equal. set_solver.
Qed.

Lemma count_loop_common l n (acc : gset string) p :
  p ∈ acc → Forall (fun c => p ∈ get_phones c) l →
  (fold_left count_step l (n, acc)).1 = n.
Proof.
  intros Hp Hl. revert acc Hp. induction Hl as [|c l Hc _ IH]; intros acc Hp; [done|].
  cbn [fold_left].
  replace (count_step (n, acc) c) with (n, acc ∪ phone_set c).
  - apply IH. set_solver.
  - cbn. apply elem_of_phone_set in Hc. by rewrite decide_False by set_solver.
Qed.

Lemma count_loop_disjoint l n (acc : gset string) :
  (∀ c p, c ∈ l → p ∈ get_phones c → p ∉ acc) →
  (∀ i j c d p, l !! i = Some c → l !! j = Some d →
                p ∈ get_phones c → p ∈ get_phones d → i = j) →
  (fold_left count_step (find has_phones l) (n, acc)).1
  = (n + Z.of_nat (length (find has_phones l)))%Z.
Proof.
  revert n acc. induction l as [|c l IH]; intros n acc Hnew Hone.
  { cbn. lia. }
  assert (∀ i j c' d p, l !! i = Some c' → l !! j = Some d →
            p ∈ get_phones c' → p ∈ get_phones d → i = j) as Htail.
  { intros i j c' d p Hi Hj Hc' Hd.
    by injection (Hone (S i) (S j) c' d p Hi Hj Hc' Hd). }
  cbn [find List.filter]. destruct (has_phones c) eqn:Hp.
  - cbn [fold_left length].
    replace (count_step (n, acc) c) with ((n + 1)%Z, acc ∪ phone_set c).
    + fold (find has_phones l). rewrite IH; [lia| |done].
      intros d p Hd Hpd. rewrite not_elem_of_union, elem_of_phone_set. split.
      * apply (Hnew d); [by right|done].
      * intros Hpc. apply list_elem_of_lookup in Hd as [j Hj].
        by specialize (Hone 0 (S j) c d p eq_refl Hj Hpc Hpd).
    + cbn. rewrite decide_True; [done|]. apply set_eq. intros p.
      rewrite elem_of_intersection, elem_of_phone_set. split; [|set_solver].
      intros [Hpc HpS]. destruct (Hnew c p); [by left|done..].
  - fold (find has_phones l). apply IH; [|done].
    intros d p Hd. apply Hnew. by right.
Qed.

Lemma find_Forall l : Forall (fun c => has_phones c = true) (find has_phones l).
Proof. apply Forall_forall. by intros c [_ Hc]%elem_of_find. Qed.

(** X1. The returned set holds exactly the phone numbers of the stored
    contacts, counted or not, and so does not depend on the order in which
    the collection is enumerated. *)
Theorem all_phones_order_independent (l l' : list contact) :
  l ≡ₚ l' →
  (get_unique_contacts_count l).2 = (get_unique_contacts_count l').2
  ∧ ∀ p, p ∈ (get_unique_contacts_count l).2
         ↔ ∃ c, c ∈ l ∧ p ∈ get_phones c.
Proof.
  intros Hperm. split; [|apply all_phones_elem].
  apply set_eq. intros p. rewrite !all_phones_elem.
  split; intros (c & Hc & Hp); exists c; split; try done.
  - by rewrite <- Hperm.
  - by rewrite Hperm.
Qed.

Lemma all_phones_order_independent_witness :
  (get_unique_contacts_count
     [Demo.stored (Some ["A"]); Demo.stored (Some ["B"; "A"])]).2
  = (get_unique_contacts_count
       [Demo.stored (Some ["B"; "A"]); Demo.stored (Some ["A"])]).2
  ∧ ∀ p, p ∈ (get_unique_contacts_count
                [Demo.stored (Some ["A"]); Demo.stored (Some ["B"; "A"])]).2
         ↔ ∃ c, c ∈ [Demo.stored (Some ["A"]); Demo.stored (Some ["B"; "A"])]
                ∧ p ∈ get_phones c.
Proof.
  apply all_phones_order_independent. apply Permutation_swap.
Defined.

(** X2. The count does depend on the enumeration order: two enumerations
    of the same contacts can give different counts. *)
Theorem unique_count_depends_on_order :
  ¬ ∀ l l' : list contact,
      l ≡ₚ l' →
      (get_unique_contacts_count l).1 = (get_unique_contacts_count l').1.
Proof.
  intros Hall.
  specialize (Hall
    [Demo.stored (Some ["A"]); Demo.stored (Some ["B"]); Demo.stored (Some ["A"; "B"])]
    [Demo.stored (Some ["A"; "B"]); Demo.stored (Some ["A"]); Demo.stored (Some ["B"])]).
  assert (Hperm : [Demo.stored (Some ["A"]); Demo.stored (Some ["B"]);
                   Demo.stored (Some ["A"; "B"])]
                  ≡ₚ [Demo.stored (Some ["A"; "B"]); Demo.stored (Some ["A"]);
                      Demo.stored (Some ["B"])]).
  { symmetry. apply (Permutation_cons_append [_; _]). }
  specialize (Hall Hperm). vm_compute in Hall. discriminate Hall.
Qed.

(** X3. The count never exceeds the number of distinct phone numbers
    returned with it: every counted contact brings a number not seen
    before. *)
Theorem unique_count_le_phones (coll : list contact) :
  ((get_unique_contacts_count coll).1
   ≤ Z.of_nat (size (get_unique_contacts_count coll).2))%Z.
Proof.
  unfold get_unique_contacts_count.
  apply count_loop_size; [apply find_Forall|]. rewrite size_empty. lia.
Qed.

(** X4. Contacts enumerated after a collection never lower the count and
    raise it by at most the number of them that have a phone; the phone set
    only grows. *)
Theorem unique_count_grows (coll more : list contact) :
  ((get_unique_contacts_count coll).1
   ≤ (get_unique_contacts_count (coll ++ more)).1
   ≤ (get_unique_contacts_count coll).1
     + Z.of_nat (length (filter (fun c => get_phones c ≠ []) more)))%Z
  ∧ (get_unique_contacts_count coll).2
    ⊆ (get_unique_contacts_count (coll ++ more)).2.
Proof.
  rewrite get_unique_contacts_count_app, <- find_has_phones.
  split; [apply count_loop_bounds|]. rewrite count_loop_all_phones. set_solver.
Qed.

(** X5. Contacts all of whose phone numbers already belong to contacts of
    the collection change nothing when enumerated after it: neither the
    count nor the phone set. *)
Theorem known_numbers_add_nothing (coll more : list contact) :
  (∀ c p, c ∈ more → p ∈ get_phones c → ∃ d, d ∈ coll ∧ p ∈ get_phones d) →
  get_unique_contacts_count (coll ++ more) = get_unique_contacts_count coll.
Proof.
  intros Hknown. rewrite get_unique_contacts_count_app.
  destruct (get_unique_contacts_count coll) as [n acc] eqn:E.
  apply count_loop_known, Forall_forall. intros c Hc p Hp%elem_of_phone_set.
  change acc with (n, acc).2. rewrite <- E. apply all_phones_elem. eauto.
Qed.

Lemma known_numbers_add_nothing_witness :
  get_unique_contacts_count
    ([Demo.stored (Some ["A"]); Demo.stored (Some ["B"; "C"])]
     ++ [Demo.stored (Some ["C"; "A"]); Demo.stored (Some [])])
  = get_unique_contacts_count
      [Demo.stored (Some ["A"]); Demo.stored (Some ["B"; "C"])].
Proof.
  apply known_numbers_add_nothing. intros c p Hc Hp.
  apply elem_of_cons in Hc as [->|Hc].
  - apply elem_of_cons in Hp as [->|Hp].
    + exists (Demo.stored (Some ["B"; "C"])). split; [by right; left|by right; left].
    + apply list_elem_of_singleton in Hp as ->.
      exists (Demo.stored (Some ["A"])). split; by left.
  - apply list_elem_of_singleton in Hc as ->. by apply elem_of_nil in Hp.
Defined.

(** X6. When no phone number belongs to two contacts of the collection,
    every contact with a phone is counted. *)
Theorem distinct_numbers_all_counted (coll : list contact) :
  (∀ i j c d p, coll !! i = Some c → coll !! j = Some d →
                p ∈ get_phones c → p ∈ get_phones d → i = j) →
  (get_unique_contacts_count coll).1
  = Z.of_nat (length (filter (fun c => get_phones c ≠ []) coll)).
Proof.
  intros Hone. unfold get_unique_contacts_count. cbn zeta.
  rewrite count_loop_disjoint, find_has_phones; [lia| |done].
  intros c p _ _. apply not_elem_of_empty.
Qed.

Lemma distinct_numbers_all_counted_witness :
  (get_unique_contacts_count
     [Demo.stored (Some ["A"]); Demo.stored None; Demo.stored (Some ["B"; "C"])]).1
  = 2%Z.
Proof.
  apply (distinct_numbers_all_counted
           [Demo.stored (Some ["A"]); Demo.stored None;
            Demo.stored (Some ["B"; "C"])]).
  intros [|[|[|i]]] [|[|[|j]]] c d p Hi Hj Hc Hd;
    try done; injection Hi as <-; injection Hj as <-; cbn in Hc, Hd;
    set_solver.
Defined.

(** X7. When one phone number belongs to every contact that has a phone,
    exactly one contact is counted, however many there are. *)
Theorem shared_number_counts_once (coll : list contact) (p : string) :
  (∀ c, c ∈ coll → has_phones c = true → p ∈ get_phones c) →
  find has_phones coll ≠ [] →
  (get_unique_contacts_count coll).1 = 1%Z.
Proof.
  intros Hshared Hne. unfold get_unique_contacts_count. cbn zeta.
  assert (Forall (fun c => p ∈ get_phones c) (find has_phones coll)) as Hall.
  { apply Forall_forall. intros c [Hc Hp]%elem_of_find. by apply Hshared. }
  destruct (find has_phones coll) as [|c rest]; [done|].
  cbn [fold_left]. rewrite count_step_initial.
  apply Forall_cons in Hall as [Hc Hrest].
  apply count_loop_common with (p := p); [by apply elem_of_phone_set|done].
Qed.

Lemma shared_number_counts_once_witness :
  (get_unique_contacts_count
     [Demo.stored (Some ["A"; "B"]); Demo.stored (Some []);
      Demo.stored (Some ["C"; "A"]); Demo.stored (Some ["A"])]).1 = 1%Z.
Proof.
  apply (shared_number_counts_once _ "A").
  - intros c Hc Hp. repeat (apply elem_of_cons in Hc as [->|Hc]);
      [set_solver|done|set_solver|set_solver|by apply elem_of_nil in Hc].
  - vm_compute. discriminate.
Defined.

(** ** The clean-up functions, over whole lists *)

Lemma length_first_occurrences l :
  (length (first_occurrences l) ≤ length l)%nat.
Proof.
  induction l as [|x l IH]; [done|]. cbn.
  pose proof (length_filter (fun y => y ≠ x) (first_occurrences l)). lia.
Qed.

Lemma length_first_occurrences_eq l :
  length (first_occurrences l) = length l ↔ NoDup l.
Proof.
  split; [|by intros ->%first_occurrences_NoDup].
  induction l as [|x l IH]; [constructor|]. cbn. intros Hlen.
  pose proof (length_filter (fun y => y ≠ x) (first_occurrences l)) as Hf.
  pose proof (length_first_occurrences l) as Hl.
  constructor; [|apply IH; lia].
  intros Hx%elem_of_first_occurrences.
  pose proof (length_filter_lt (fun y => y ≠ x) _ x Hx) as Hlt.
  cbv beta in Hlt. specialize (Hlt ltac:(tauto)). lia.
Qed.

Lemma first_occurrences_nil l : first_occurrences l = [] ↔ l = [].
Proof. by destruct l. Qed.

Lemma dedup_loop_app key l1 l2 :
  (dedup_loop key (l1 ++ l2) initial).2
  = (dedup_loop key l1 initial).2
    ++ filter (fun y => y ∉ (dedup_loop key l1 initial).2)
         (dedup_loop key l2 initial).2.
Proof.
  unfold dedup_loop at 1. rewrite fold_left_app.
  fold (dedup_loop key l1 initial). fold (dedup_loop key l2 (dedup_loop key l1 initial)).
  rewrite dedup_loop_first_occurrences
    by apply dedup_loop_consistent, consistent_initial.
  by rewrite (dedup_loop_initial key l2).
Qed.

Lemma all_space_lower s : all_space (PyStr.lower s) = all_space s.
Proof.
  induction s as [|c s IH]; [done|]. cbn. by rewrite isspace_lower_char, IH.
Qed.

Lemma lstrip_nil s : PyStr.lstrip s = EmptyString ↔ all_space s = true.
Proof.
  induction s as [|c s IH]; [done|]. cbn.
  destruct (PyStr.isspace c); [exact IH|]. split; discriminate.
Qed.

Lemma rstrip_nil s : PyStr.rstrip s = EmptyString → all_space s = true.
Proof.
  intros Hr. destruct (rstrip_split s) as (ws & Hws & Hs).
  rewrite Hr in Hs. cbn in Hs. by subst.
Qed.

Lemma strip_nil s : PyStr.strip s = EmptyString ↔ all_space s = true.
Proof.
  unfold PyStr.strip. split.
  - intros Hr%rstrip_nil. apply lstrip_nil.
    pose proof (lstrip_head_nonspace s) as Hh.
    destruct (PyStr.lstrip s) as [|c t]; [done|].
    cbn in Hr, Hh. by rewrite Hh in Hr.
  - intros Hs%lstrip_nil. by rewrite Hs.
Qed.

(** X8. Neither clean-up returns more entries than it was given; it
    returns as many exactly when no two entries have the same canonical
    form, and it returns the empty list only for the empty list. *)
Theorem cleanup_length `{PhoneNumbers} (l : list string) :
  (∃ out,
     cleanup_phone_numbers l = Ok out
     ∧ (length out ≤ length l)%nat
     ∧ (length out = length l ↔ NoDup (canonical_phone <$> l))
     ∧ (out = [] ↔ l = []))
  ∧ (length (cleanup_emails l) ≤ length l)%nat
  ∧ (length (cleanup_emails l) = length l ↔ NoDup (canonical_email <$> l))
  ∧ (cleanup_emails l = [] ↔ l = []).
Proof.
  rewrite cleanup_emails_first_occurrences.
  pose proof (length_first_occurrences (canonical_phone <$> l)) as Hp.
  pose proof (length_first_occurrences (canonical_email <$> l)) as He.
  pose proof (length_first_occurrences_eq (canonical_phone <$> l)) as Hpe.
  pose proof (length_first_occurrences_eq (canonical_email <$> l)) as Hee.
  rewrite length_fmap in Hp, He, Hpe, Hee.
  split_and!; [|done..|].
  - eexists. split_and!; [apply cleanup_phone_numbers_ok|done..|].
    rewrite first_occurrences_nil. by destruct l.
  - rewrite first_occurrences_nil. by destruct l.
Qed.

(** X9. Cleaning two lists put end to end gives the clean-up of the first
    followed by those entries of the clean-up of the second that the first
    did not already give; so the clean-up of a list starts with the
    clean-up of each of its prefixes. *)
Theorem cleanup_app `{PhoneNumbers} (l1 l2 : list string) :
  (∃ out1 out2,
     cleanup_phone_numbers l1 = Ok out1
     ∧ cleanup_phone_numbers l2 = Ok out2
     ∧ cleanup_phone_numbers (l1 ++ l2)
       = Ok (out1 ++ filter (fun y => y ∉ out1) out2))
  ∧ cleanup_emails (l1 ++ l2)
    = cleanup_emails l1
      ++ filter (fun y => y ∉ cleanup_emails l1) (cleanup_emails l2).
Proof.
  split.
  - do 2 eexists. split_and!; [apply cleanup_phone_numbers_ok..|].
    rewrite cleanup_phone_numbers_ok. f_equal.
    rewrite <- !dedup_loop_initial. apply dedup_loop_app.
  - rewrite !cleanup_emails_first_occurrences, <- !dedup_loop_initial.
    apply dedup_loop_app.
Qed.

(** X10. E-mail entries are not validated: the output of [cleanup_emails]
    holds the empty string exactly when some entry is empty or made of
    whitespace only. *)
Theorem cleanup_emails_blank (l : list string) :
  EmptyString ∈ cleanup_emails l ↔ ∃ e, e ∈ l ∧ all_space e = true.
Proof.
  rewrite cleanup_emails_first_occurrences, elem_of_first_occurrences,
    list_elem_of_fmap.
  split; intros (e & He & Hl); exists e.
  - split; [done|]. symmetry in He. apply strip_nil in He.
    by rewrite all_space_lower in He.
  - split; [|done]. symmetry. apply strip_nil. by rewrite all_space_lower.
Qed.

(** ** The ingestion handler *)

Lemma string_length_app (s t : string) :
  String.length (s +:+ t) = String.length s + String.length t.
Proof.
  induction s as [|c s IH]; [done|].
  change (String c s +:+ t) with (String c (s +:+ t)). cbn. by rewrite IH.
Qed.

Lemma cleanup_emails_fixed l :
  Forall (fun e => canonical_email e = e) (cleanup_emails l).
Proof.
  apply Forall_forall. intros e.
  rewrite cleanup_emails_first_occurrences, elem_of_first_occurrences,
    list_elem_of_fmap.
  intros (e' & -> & _). apply canonical_email_idemp.
Qed.

Lemma get_unique_contacts_count_known coll more :
  (∀ c p, c ∈ more → p ∈ get_phones c → ∃ d, d ∈ coll ∧ p ∈ get_phones d) →
  get_unique_contacts_count (coll ++ more) = get_unique_contacts_count coll.
Proof.
  intros Hknown. rewrite get_unique_contacts_count_app.
  destruct (get_unique_contacts_count coll) as [n acc] eqn:E.
  apply count_loop_known, Forall_forall. intros c Hc p Hp%elem_of_phone_set.
  change acc with (n, acc).2. rewrite <- E. apply all_phones_elem. eauto.
Qed.

Section Handler.
Context `{PhoneNumbers}.

Lemma clean_contact_ok rc :
  clean_contact rc
  = Ok {| raw_name := raw_name rc;
          raw_firstName := raw_firstName rc;
          raw_phones :=
            Some (first_occurrences (canonical_phone <$> default [] (raw_phones rc)));
          raw_emails := Some (cleanup_emails (default [] (raw_emails rc))) |}.
Proof. unfold clean_contact. by rewrite cleanup_phone_numbers_ok. Qed.

Lemma clean_contacts_total l :
  ∃ cleaned, clean_contacts l = Ok cleaned
             ∧ Forall2 (fun rc c => clean_contact rc = Ok c) l cleaned.
Proof.
  induction l as [|rc l (cleaned & Hl & Hall)].
  - exists []. by split; [|constructor].
  - eexists (_ :: cleaned). cbn [clean_contacts].
    rewrite clean_contact_ok, Hl. split; [reflexivity|].
    constructor; [apply clean_contact_ok|done].
Qed.

Lemma well_kept_doc ref rc c :
  clean_contact rc = Ok c → well_kept (contact_doc ref c).
Proof.
  rewrite clean_contact_ok. intros [= <-]. split_and!; cbn.
  - eexists. split; [done|]. apply NoDup_first_occurrences.
  - rewrite cleanup_emails_first_occurrences. apply NoDup_first_occurrences.
  - apply cleanup_emails_fixed.
Qed.

Lemma has_phones_doc ref rc c :
  clean_contact rc = Ok c →
  has_phones (contact_doc ref c) = true ↔ default [] (raw_phones rc) ≠ [].
Proof.
  rewrite clean_contact_ok. intros [= <-]. rewrite has_phones_true.
  unfold get_phones. cbn. rewrite first_occurrences_nil.
  by destruct (default [] (raw_phones rc)).
Qed.

Lemma contact_docs_cleaned data :
  ∃ cleaned,
    clean_contacts (default [] (contacts data)) = Ok cleaned
    ∧ Forall2 (fun rc c => clean_contact rc = Ok c)
        (default [] (contacts data)) cleaned
    ∧ contact_docs data
      = contact_doc (default "unknown" (userName data)) <$> cleaned.
Proof.
  destruct (clean_contacts_total (default [] (contacts data)))
    as (cleaned & Hc & Hall).
  exists cleaned. split_and!; [done..|]. unfold contact_docs. by rewrite Hc.
Qed.

Lemma length_contact_docs data :
  length (contact_docs data) = length (default [] (contacts data)).
Proof.
  destruct (contact_docs_cleaned data) as (cleaned & _ & Hall & ->).
  rewrite length_fmap. symmetry. by eapply Forall2_length.
Qed.

Lemma contact_docs_well_kept data : Forall well_kept (contact_docs data).
Proof.
  destruct (contact_docs_cleaned data) as (cleaned & _ & Hall & ->).
  apply Forall_fmap. induction Hall as [|rc c l l' Hc _ IH]; constructor;
    [by eapply well_kept_doc|done].
Qed.

End Handler.

Lemma insert_all_spec ok i docs coll :
  ∃ k, (k ≤ length docs)%nat
       ∧ (insert_all ok i docs coll).1 = coll ++ take k docs
       ∧ (∀ j, (j < k)%nat → ok (i + j) = true)
       ∧ (if (insert_all ok i docs coll).2 then k = length docs
          else (k < length docs)%nat ∧ ok (i + k) = false).
Proof.
  revert i coll. induction docs as [|d docs IH]; intros i coll.
  - exists 0. cbn. rewrite app_nil_r. split_and!; try done; lia.
  - cbn [insert_all]. destruct (ok i) eqn:Hi.
    + destruct (IH (S i) (coll ++ [d])) as (k & Hk & Hcoll & Hok & Hend).
      exists (S k). split_and!.
      * cbn. lia.
      * rewrite Hcoll, <- app_assoc. done.
      * intros [|j] Hj; [by rewrite Nat.add_0_r|].
        rewrite Nat.add_succ_r. apply (Hok j). lia.
      * destruct (insert_all ok (S i) docs (coll ++ [d])).2.
        -- cbn. by rewrite Hend.
        -- rewrite Nat.add_succ_r. cbn. split; [lia|tauto].
    + exists 0. cbn. rewrite app_nil_r, Nat.add_0_r.
      split_and!; try done; lia.
Qed.

Section HandlerOutcome.
Context `{PhoneNumbers}.

(** Every way a request can end. *)
Lemma save_contacts_cases env data coll :
  let o := save_contacts env data coll in
  let docs := contact_docs data in
  let reference_name := default "unknown" (userName data) in
  (storage_ok env = false
   ∧ collection_after o = coll ∧ written o = None
   ∧ error_logged o = true ∧ reply o = HTTPException 500)
  ∨ (storage_ok env = true
     ∧ ∃ k d,
         (k ≤ length docs)%nat
         ∧ (∀ j, (j < k)%nat → insert_ok env j = true)
         ∧ collection_after o = coll ++ take k docs
         ∧ written o
           = Some (path_join STORAGE_DIR
                     (reference_name +:+ "-contacts_" +:+ timestamp env +:+ ".json"),
                   d)
         ∧ userName d = userName data
         ∧ contact_doc reference_name <$> default [] (contacts d) = docs
         ∧ ((k = length docs ∧ error_logged o = false
             ∧ reply o = Success ("contacts_" +:+ timestamp env +:+ ".json") d)
            ∨ ((k < length docs)%nat ∧ insert_ok env k = false
               ∧ error_logged o = true ∧ reply o = HTTPException 500))).
Proof.
  cbn zeta. unfold save_contacts.
  destruct (contact_docs_cleaned data) as (cleaned & Hc & _ & Hdocs).
  rewrite Hc, Hdocs. destruct (storage_ok env); [right|left; done].
  split; [done|].
  destruct (insert_all_spec (insert_ok env) 0
              (contact_doc (default "unknown" (userName data)) <$> cleaned) coll)
    as (k & Hk & Hcoll & Hok & Hend).
  destruct (insert_all _ _ _ _) as [coll' [|]]; cbn [fst snd] in *;
    exists k; eexists;
    (split; [done|]); (split; [intros j Hj; exact (Hok j Hj)|]);
    (split; [done|]);
    (split; [reflexivity|]); (split; [done|]);
    (split;
       [cbn; destruct (contacts data) eqn:E; rewrite ?E in Hc; cbn in *;
        [done|by injection Hc as <-]|]).
  - left. by split_and!.
  - right. destruct Hend. by split_and!.
Qed.

(** X11. Whatever happens to a request, the documents that were in the
    collection stay, in their order; what is added after them is a prefix
    of the documents of the request body, in the order of its contacts;
    and every added document has its phones field, without repetition,
    and its e-mails in canonical form, without repetition. *)
Theorem save_contacts_appends (env : environment) (data : payload)
    (coll : list contact) :
  ∃ new,
    collection_after (save_contacts env data coll) = coll ++ new
    ∧ new `prefix_of` contact_docs data
    ∧ Forall well_kept new.
Proof.
  destruct (save_contacts_cases env data coll)
    as [(_ & -> & _)|(_ & k & d & _ & _ & -> & _)].
  - exists []. rewrite app_nil_r. split_and!; [done|apply prefix_nil|constructor].
  - exists (take k (contact_docs data)).
    split_and!; [done|apply prefix_take|].
    apply Forall_take, contact_docs_well_kept.
Qed.

(** X14. The file name returned in a success answer is never the name of
    the file that was written: [read_contacts] would look the returned
    name up at a path other than the one [save_contacts] wrote to. *)
Theorem returned_filename_not_written (env : environment) (data : payload)
    (coll : list contact) (filename : string) (d : payload) :
  reply (save_contacts env data coll) = Success filename d →
  ∃ path, written (save_contacts env data coll) = Some (path, d)
          ∧ path ≠ read_path filename.
Proof.
  intros Hr.
  destruct (save_contacts_cases env data coll)
    as [(_ & _ & _ & _ & Hr')|(_ & k & d' & _ & _ & _ & Hw & _ & _ & Hend)];
    [by rewrite Hr' in Hr|].
  destruct Hend as [(_ & _ & Hr')|(_ & _ & _ & Hr')]; rewrite Hr' in Hr; [|done].
  injection Hr as <- <-. eexists. split; [exact Hw|].
  set (ts := timestamp env). set (ref := default "unknown" (userName data)).
  assert (read_path ("contacts_" +:+ ts +:+ ".json")
          = "contact_storage/contacts_" +:+ ts +:+ ".json") as -> by reflexivity.
  unfold path_join.
  destruct (PyStr.startswith (ref +:+ "-contacts_" +:+ ts +:+ ".json") "/") eqn:Hs.
  - destruct ref as [|c ref]; [discriminate Hs|].
    change (PyStr.startswith _ _) with (Ascii.eqb "/" c && true) in Hs.
    rewrite andb_true_r in Hs. apply Ascii.eqb_eq in Hs as <-.
    intros [=].
  - change (String.eqb STORAGE_DIR "" || ends_with STORAGE_DIR "/") with false.
    cbn iota. intros Heq%(f_equal String.length).
    rewrite !string_length_app in Heq. cbn in Heq. lia.
Qed.

(** X15. The document stored for a contact of the body takes its name and
    first name from the body, the empty string standing for a missing
    key, and its phones and e-mails from the two clean-ups, the empty list
    standing for a missing key. It passes the query of the unique count
    exactly when the body gave the contact at least one phone entry, well
    formed or not. *)
Theorem stored_contact_fields (reference_name : string) (rc : raw_contact) :
  ∃ c ps,
    clean_contact rc = Ok c
    ∧ cleanup_phone_numbers (default [] (raw_phones rc)) = Ok ps
    ∧ contact_doc reference_name c
      = {| reference_name := reference_name;
           name := default "" (raw_name rc);
           firstName := default "" (raw_firstName rc);
           phones := Some ps;
           emails := cleanup_emails (default [] (raw_emails rc)) |}
    ∧ (has_phones (contact_doc reference_name c) = true
       ↔ ∃ p, p ∈ default [] (raw_phones rc)).
Proof.
  do 2 eexists.
  split_and!; [apply clean_contact_ok|apply cleanup_phone_numbers_ok|done|].
  rewrite (has_phones_doc reference_name rc) by apply clean_contact_ok.
  destruct (default [] (raw_phones rc)) as [|p l].
  - split; [done|]. by intros [p Hp%elem_of_nil].
  - split; [|done]. intros _. exists p. by left.
Qed.

Lemma length_find_docs ref raws cleaned :
  Forall2 (fun rc c => clean_contact rc = Ok c) raws cleaned →
  length (find has_phones (contact_doc ref <$> cleaned))
  = length (filter (fun rc => default [] (raw_phones rc) ≠ []) raws).
Proof.
  induction 1 as [|rc c raws cleaned Hc _ IH]; [done|].
  rewrite fmap_cons, filter_cons. cbn [find List.filter].
  fold (find has_phones (contact_doc ref <$> cleaned)).
  pose proof (has_phones_doc ref rc c Hc) as Hp.
  destruct (decide (default [] (raw_phones rc) ≠ [])) as [Hne|He].
  - apply Hp in Hne. rewrite Hne. cbn. by rewrite IH.
  - destruct (has_phones (contact_doc ref c)); [|done]. by destruct He; apply Hp.
Qed.

(** X16. Once a request has succeeded, sending the same body again changes
    neither the unique count nor the phone set, whatever becomes of the
    second request. *)
Theorem resubmission_adds_no_count (env1 env2 : environment) (data : payload)
    (coll : list contact) (filename : string) (d : payload) :
  reply (save_contacts env1 data coll) = Success filename d →
  get_unique_contacts_count
    (collection_after
       (save_contacts env2 data (collection_after (save_contacts env1 data coll))))
  = get_unique_contacts_count (collection_after (save_contacts env1 data coll)).
Proof.
  intros Hr.
  assert (collection_after (save_contacts env1 data coll)
          = coll ++ contact_docs data) as ->.
  { destruct (save_contacts_cases env1 data coll)
      as [(_ & _ & _ & _ & Hr')|(_ & k & d' & _ & _ & Hcoll & _ & _ & _ & Hend)];
      [by rewrite Hr' in Hr|].
    destruct Hend as [(-> & _)|(_ & _ & _ & Hr')]; [|by rewrite Hr' in Hr].
    by rewrite firstn_all in Hcoll. }
  destruct (save_contacts_cases env2 data (coll ++ contact_docs data))
    as [(_ & -> & _)|(_ & k & d' & _ & _ & -> & _)]; [done|].
  apply get_unique_contacts_count_known. intros c p Hc Hp.
  exists c. split; [|done]. apply elem_of_app. right. by eapply subseteq_take.
Qed.

(** X17. A request never lowers the unique count, and raises it by at most
    the number of contacts of its body that carry a phone entry. *)
Theorem save_contacts_count_growth (env : environment) (data : payload)
    (coll : list contact) :
  let o := save_contacts env data coll in
  ((get_unique_contacts_count coll).1
   ≤ (get_unique_contacts_count (collection_after o)).1
   ≤ (get_unique_contacts_count coll).1
     + Z.of_nat (length (filter (fun rc => default [] (raw_phones rc) ≠ [])
                           (default [] (contacts data)))))%Z.
Proof.
  cbn zeta.
  assert (∃ new rest, collection_after (save_contacts env data coll) = coll ++ new
                      ∧ contact_docs data = new ++ rest) as (new & rest & -> & Hdocs).
  { destruct (save_contacts_cases env data coll)
      as [(_ & -> & _)|(_ & k & d & _ & _ & -> & _)].
    - exists [], (contact_docs data). by rewrite app_nil_r.
    - exists (take k (contact_docs data)), (drop k (contact_docs data)).
      by rewrite take_drop. }
  rewrite get_unique_contacts_count_app.
  pose proof (count_loop_bounds (find has_phones new)
                (get_unique_contacts_count coll)) as Hb.
  destruct (contact_docs_cleaned data) as (cleaned & _ & Hall & Hd).
  pose proof (length_find_docs (default "unknown" (userName data)) _ _ Hall) as Hlen.
  rewrite <- Hd, Hdocs, find_app, length_app in Hlen. lia.
Qed.

End HandlerOutcome.

Lemma returned_filename_not_written_witness :
  ∃ path,
    written (save_contacts (H:=Demo.plain) demo_env demo_payload [])
    = Some (path,
            {| userName := Some "ann";
               contacts := Some
                 [ {| raw_name := Some "Bob"; raw_firstName := None;
                      raw_phones := Some ["+919876543210"; "nope"];
                      raw_emails := Some ["bob@x.org"] |};
                   {| raw_name := None; raw_firstName := Some "Cy";
                      raw_phones := Some []; raw_emails := Some [] |};
                   {| raw_name := Some "Di"; raw_firstName := None;
                      raw_phones := Some ["+91123"]; raw_emails := Some [] |} ] |})
    ∧ path ≠ read_path "contacts_20240101_101500.json".
Proof.
  apply (returned_filename_not_written (H:=Demo.plain) demo_env demo_payload []).
  vm_compute. reflexivity.
Defined.

Lemma resubmission_adds_no_count_witness :
  get_unique_contacts_count
    (collection_after
       (save_contacts (H:=Demo.plain) demo_env_failing demo_payload
          (collection_after
             (save_contacts (H:=Demo.plain) demo_env demo_payload []))))
  = get_unique_contacts_count
      (collection_after (save_contacts (H:=Demo.plain) demo_env demo_payload [])).
Proof.
  eapply (resubmission_adds_no_count (H:=Demo.plain) demo_env demo_env_failing
            demo_payload []).
  vm_compute. reflexivity.
Defined.

Lemma same_numbers_phone_set c d :
  (∀ p, p ∈ get_phones c ↔ p ∈ get_phones d) →
  phone_set c = phone_set d ∧ has_phones c = has_phones d.
Proof.
  intros Hcd. split.
  - apply set_eq. intros p. by rewrite !elem_of_phone_set.
  - rewrite !has_phones_get_phones. apply bool_decide_ext.
    destruct (get_phones c) as [|p l], (get_phones d) as [|q k]; try done.
    + exfalso. eapply elem_of_nil, (proj2 (Hcd q)). by left.
    + exfalso. eapply elem_of_nil, (proj1 (Hcd p)). by left.
Qed.

(** X18. The result depends only on which phone numbers each contact has,
    contact by contact: names, e-mails and the user who sent a contact play
    no part, nor do the order and the repetitions inside a contact's phone
    list. *)
Theorem unique_count_reads_phones_only (l l' : list contact) :
  Forall2 (fun c d => ∀ p, p ∈ get_phones c ↔ p ∈ get_phones d) l l' →
  get_unique_contacts_count l = get_unique_contacts_count l'.
Proof.
  intros Hall. unfold get_unique_contacts_count. cbn zeta.
  generalize (0%Z, ∅ : gset string).
  induction Hall as [|c d l l' Hcd _ IH]; intros st; [done|].
  destruct (same_numbers_phone_set c d Hcd) as [Hset Hhas].
  cbn [find List.filter]. rewrite Hhas.
  destruct (has_phones d); [|apply IH]. cbn [fold_left].
  replace (count_step st c) with (count_step st d); [apply IH|].
  unfold count_step. destruct st. by rewrite Hset.
Qed.

Lemma unique_count_reads_phones_only_witness :
  get_unique_contacts_count
    [ {| reference_name := "ann"; name := "Bob"; firstName := "";
         phones := Some ["1"; "2"; "1"]; emails := ["bob@x.org"] |};
      {| reference_name := "ann"; name := "Cy"; firstName := "";
         phones := None; emails := [] |} ]
  = get_unique_contacts_count
      [ {| reference_name := "joe"; name := "Robert"; firstName := "R";
           phones := Some ["2"; "1"]; emails := [] |};
        {| reference_name := "joe"; name := ""; firstName := "";
           phones := Some []; emails := ["cy@x.org"] |} ].
Proof.
  apply unique_count_reads_phones_only.
  constructor; [|constructor; [|constructor]]; intros p; cbn; set_solver.
Defined.

(** ** The handler on bodies with entries of any JSON type *)

Section RequestOutcome.
Context `{PhoneNumbers}.

Lemma clean_request_contact_typed c rc :
  typed_contact c = Some rc →
  ∃ cleaned, clean_contact rc = Ok cleaned
             ∧ clean_request_contact c = Some cleaned.
Proof.
  unfold typed_contact, clean_request_contact. intros Hc.
  eexists. split; [apply clean_contact_ok|].
  destruct (req_phones c) as [ps|], (req_emails c) as [es|]; cbn in *.
  - destruct (entry_strings ps) as [ps'|]; [|done]. cbn in *.
    destruct (entry_strings es) as [es'|]; [|done]. cbn in *.
    injection Hc as <-. by rewrite ?cleanup_phone_numbers_ok.
  - destruct (entry_strings ps) as [ps'|]; [|done]. cbn in *.
    injection Hc as <-. by rewrite ?cleanup_phone_numbers_ok.
  - destruct (entry_strings es) as [es'|]; [|done]. cbn in *.
    injection Hc as <-. by rewrite ?cleanup_phone_numbers_ok.
  - injection Hc as <-. by rewrite ?cleanup_phone_numbers_ok.
Qed.

Lemma clean_request_contact_untyped c :
  typed_contact c = None → clean_request_contact c = None.
Proof.
  unfold typed_contact, clean_request_contact.
  destruct (req_phones c) as [ps|], (req_emails c) as [es|]; cbn;
    try destruct (entry_strings ps) as [ps'|]; cbn;
    try destruct (entry_strings es) as [es'|]; cbn;
    try done; by rewrite ?cleanup_phone_numbers_ok.
Qed.

Lemma clean_request_contacts_typed l l' :
  typed_contacts l = Some l' →
  length l' = length l
  ∧ ∃ cleaned, clean_contacts l' = Ok cleaned
               ∧ clean_request_contacts l = Some cleaned.
Proof.
  revert l'. induction l as [|c l IH]; intros l' Hl; cbn in Hl.
  - injection Hl as <-. split; [done|]. by exists [].
  - destruct (typed_contact c) as [rc|] eqn:Hc; [|done]. cbn in Hl.
    destruct (typed_contacts l) as [l1|]; [|done]. cbn in Hl.
    injection Hl as <-. destruct (IH l1 eq_refl) as (Hlen & cleaned & Hcl & Hreq).
    destruct (clean_request_contact_typed c rc Hc) as (c' & Hc' & Hreq').
    split; [cbn; by rewrite Hlen|]. exists (c' :: cleaned).
    cbn [clean_contacts clean_request_contacts]. by rewrite Hc', Hcl, Hreq', Hreq.
Qed.

Lemma clean_request_contacts_untyped l :
  typed_contacts l = None → clean_request_contacts l = None.
Proof.
  induction l as [|c l IH]; cbn; [done|].
  destruct (typed_contact c) as [rc|] eqn:Hc; cbn.
  - destruct (clean_request_contact_typed c rc Hc) as (c' & _ & ->). cbn.
    destruct (typed_contacts l); [done|]. intros _. by rewrite IH.
  - intros _. by rewrite clean_request_contact_untyped.
Qed.

Lemma typed_body_contacts body data :
  typed_body body = Some data →
  userName data = req_userName body
  ∧ (contacts data = None ↔ req_contacts body = None)
  ∧ typed_contacts (default [] (req_contacts body))
    = Some (default [] (contacts data)).
Proof.
  unfold typed_body. destruct (req_contacts body) as [l|]; cbn.
  - destruct (typed_contacts l) as [l'|]; [|done]. cbn.
    intros [= <-]. by split_and!.
  - intros [= <-]. by split_and!.
Qed.

Lemma typed_body_None body :
  typed_body body = None →
  typed_contacts (default [] (req_contacts body)) = None.
Proof.
  unfold typed_body. destruct (req_contacts body) as [l|]; cbn; [|done].
  by destruct (typed_contacts l).
Qed.

(** Every way a request can end. *)
Lemma save_contacts_request_cases env body coll :
  let o := save_contacts_request env body coll in
  ((makedirs_ok env = false ∨ typed_body body = None ∨ open_ok env = false)
   ∧ stored o = coll ∧ file_opened o = None ∧ file_written o = None
   ∧ logged o = true ∧ answer o = HTTPException 500)
  ∨ (∃ data,
       typed_body body = Some data
       ∧ makedirs_ok env = true ∧ open_ok env = true
       ∧ ((dump_ok env = false
           ∧ stored o = coll ∧ is_Some (file_opened o) ∧ file_written o = None
           ∧ logged o = true ∧ answer o = HTTPException 500)
          ∨ (dump_ok env = true
             ∧ ∃ k d path,
                 (k ≤ length (contact_docs data))%nat
                 ∧ (∀ j, (j < k)%nat → req_insert_ok env j = true)
                 ∧ stored o = coll ++ take k (contact_docs data)
                 ∧ file_opened o = Some path
                 ∧ file_written o = Some (path, d)
                 ∧ userName d = req_userName body
                 ∧ contact_doc (default "unknown" (req_userName body))
                     <$> default [] (contacts d) = contact_docs data
                 ∧ ((k = length (contact_docs data) ∧ logged o = false
                     ∧ answer o
                       = Success ("contacts_" +:+ req_timestamp env +:+ ".json") d)
                    ∨ ((k < length (contact_docs data))%nat
                       ∧ req_insert_ok env k = false
                       ∧ logged o = true ∧ answer o = HTTPException 500))))).
Proof.
  cbn zeta. unfold save_contacts_request.
  destruct (makedirs_ok env) eqn:Hm; cbn [negb]; [|left; by split_and!; auto].
  destruct (typed_body body) as [data|] eqn:Hbody.
  2:{ left. rewrite clean_request_contacts_untyped by by apply typed_body_None.
      by split_and!; auto. }
  destruct (typed_body_contacts body data Hbody) as (Hu & Hnone & Hty).
  destruct (clean_request_contacts_typed _ _ Hty) as (_ & cleaned & Hcl & ->).
  destruct (open_ok env) eqn:Ho; cbn [negb]; [|left; by split_and!; auto].
  right. exists data. split_and!; [done..|].
  destruct (dump_ok env) eqn:Hd; cbn [negb]; [right|left; by split_and!].
  split; [done|].
  assert (contact_docs data
          = contact_doc (default "unknown" (req_userName body)) <$> cleaned)
    as Hdocs.
  { unfold contact_docs. by rewrite Hcl, Hu. }
  rewrite Hdocs.
  destruct (insert_all_spec (req_insert_ok env) 0
              (contact_doc (default "unknown" (req_userName body)) <$> cleaned) coll)
    as (k & Hk & Hcoll & Hok & Hend).
  destruct (insert_all _ _ _ _) as [coll' [|]]; cbn [fst snd] in *;
    exists k; do 2 eexists;
    (split; [done|]); (split; [intros j Hj; exact (Hok j Hj)|]);
    (split; [done|]); (split; [reflexivity|]); (split; [reflexivity|]);
    (split; [done|]);
    (split;
       [cbn; destruct (req_contacts body) eqn:E; cbn in *;
        [done|rewrite (proj2 Hnone eq_refl) in Hcl; by injection Hcl as <-]|]).
  - left. by split_and!.
  - right. destruct Hend. by split_and!.
Qed.

(** X12. For a body whose contacts are objects with lists for phones and
    e-mails: when every entry of those lists is a string, [os.makedirs],
    [open] and [json.dump] succeed and every insertion succeeds, the
    request is answered with success, nothing is logged, one document per
    contact of the body is added in order, and the file written holds the
    data returned, whose contacts are the ones stored. *)
Theorem save_contacts_succeeds (env : request_environment)
    (body : request_body) (data : payload) (coll : list contact) :
  typed_body body = Some data →
  makedirs_ok env = true → open_ok env = true → dump_ok env = true →
  (∀ i, (i < length (default [] (req_contacts body)))%nat →
        req_insert_ok env i = true) →
  let o := save_contacts_request env body coll in
  stored o = coll ++ contact_docs data
  ∧ length (contact_docs data) = length (default [] (req_contacts body))
  ∧ logged o = false
  ∧ ∃ d path,
      answer o = Success ("contacts_" +:+ req_timestamp env +:+ ".json") d
      ∧ file_opened o = Some path
      ∧ file_written o = Some (path, d)
      ∧ userName d = req_userName body
      ∧ contact_doc (default "unknown" (req_userName body))
          <$> default [] (contacts d) = contact_docs data.
Proof.
  intros Hbody Hm Ho Hd Hins. cbn zeta.
  assert (length (contact_docs data) = length (default [] (req_contacts body)))
    as Hlen.
  { rewrite length_contact_docs.
    destruct (typed_body_contacts body data Hbody) as (_ & _ & Hty).
    by destruct (clean_request_contacts_typed _ _ Hty) as [-> _]. }
  destruct (save_contacts_request_cases env body coll)
    as [([?|[?|?]] & _)|(data' & Hbody' & _ & _ & [(? & _)|(_ & Hrest)])];
    try congruence.
  rewrite Hbody in Hbody'. injection Hbody' as <-.
  destruct Hrest as (k & d & path & Hk & _ & Hst & Hop & Hw & Hu & Hdocs & Hend).
  destruct Hend as [(-> & Hlog & Ha)|(Hlt & Hko & _)].
  - rewrite firstn_all in Hst. split_and!; [done..|].
    exists d, path. by split_and!.
  - rewrite Hlen in Hlt. rewrite Hins in Hko; done.
Qed.

(** X13. For a body whose contacts are objects with lists for phones and
    e-mails: a request answered with an error is answered with status 500
    and logged, and it is not undone. Either some phone or e-mail entry is
    not a string, or [os.makedirs] or [open] failed, and then nothing was
    opened, written or inserted; or [json.dump] failed, and then the file
    was opened but not written in full and nothing was inserted; or the
    [k]-th insertion failed, and then the file is written and the first
    [k] documents stay in the collection. *)
Theorem save_contacts_fails (env : request_environment)
    (body : request_body) (coll : list contact) (status_code : nat) :
  answer (save_contacts_request env body coll) = HTTPException status_code →
  let o := save_contacts_request env body coll in
  status_code = 500 ∧ logged o = true
  ∧ (((typed_body body = None ∨ makedirs_ok env = false ∨ open_ok env = false)
      ∧ stored o = coll ∧ file_opened o = None ∧ file_written o = None)
     ∨ (dump_ok env = false
        ∧ stored o = coll ∧ is_Some (file_opened o) ∧ file_written o = None)
     ∨ (∃ data k,
          typed_body body = Some data
          ∧ (k < length (default [] (req_contacts body)))%nat
          ∧ req_insert_ok env k = false
          ∧ (∀ j, (j < k)%nat → req_insert_ok env j = true)
          ∧ stored o = coll ++ take k (contact_docs data)
          ∧ is_Some (file_written o))).
Proof.
  intros Ha. cbn zeta.
  destruct (save_contacts_request_cases env body coll)
    as [(Hwhy & Hst & Hop & Hw & Hlog & Ha')
       |(data & Hbody & _ & _ & [(Hd & Hst & Hop & Hw & Hlog & Ha')|(_ & Hrest)])].
  - rewrite Ha' in Ha. injection Ha as <-. split_and!; [done..|]. left.
    split_and!; [|done..]. tauto.
  - rewrite Ha' in Ha. injection Ha as <-. split_and!; [done..|].
    right; left. by split_and!.
  - destruct Hrest as (k & d & path & Hk & Hok & Hst & Hop & Hw & _ & _ & Hend).
    destruct Hend as [(_ & _ & Ha')|(Hlt & Hko & Hlog & Ha')];
      rewrite Ha' in Ha; [done|]. injection Ha as <-.
    split_and!; [done..|]. right; right. exists data, k.
    rewrite length_contact_docs in Hlt.
    destruct (typed_body_contacts body data Hbody) as (_ & _ & Hty).
    destruct (clean_request_contacts_typed _ _ Hty) as [Hlen _].
    rewrite Hlen in Hlt. rewrite Hw. by split_and!.
Qed.

(** On a body of strings the handler is [save_contacts] of the typed
    model, the three storage operations taken together; the typed model
    does not tell a file opened from a file written. *)
Lemma save_contacts_request_typed env body data coll :
  typed_body body = Some data →
  let o := save_contacts_request env body coll in
  let o' := save_contacts
              {| timestamp := req_timestamp env;
                 storage_ok := makedirs_ok env && open_ok env && dump_ok env;
                 insert_ok := req_insert_ok env |} data coll in
  stored o = collection_after o' ∧ file_written o = written o'
  ∧ logged o = error_logged o' ∧ answer o = reply o'.
Proof.
  intros Hbody. cbn zeta. unfold save_contacts_request, save_contacts.
  destruct (typed_body_contacts body data Hbody) as (Hu & Hnone & Hty).
  destruct (clean_request_contacts_typed _ _ Hty) as (_ & cleaned & Hcl & ->).
  rewrite Hcl. cbn [timestamp storage_ok insert_ok userName].
  assert ((fun _ : list request_contact => cleaned) <$> req_contacts body
          = (fun _ : list raw_contact => cleaned) <$> contacts data) as ->.
  { revert Hnone. destruct (req_contacts body), (contacts data); cbn;
      intros [Hn1 Hn2]; try done.
    - by specialize (Hn1 eq_refl).
    - by specialize (Hn2 eq_refl). }
  rewrite Hu.
  destruct (makedirs_ok env), (open_ok env), (dump_ok env); cbn; try done.
  by destruct (insert_all _ _ _ _) as [coll' [|]].
Qed.

End RequestOutcome.

Lemma save_contacts_succeeds_witness :
  stored (save_contacts_request (H:=Demo.plain) demo_request_env demo_body [])
  = [] ++ contact_docs (H:=Demo.plain) demo_body_typed
  ∧ length (contact_docs (H:=Demo.plain) demo_body_typed)
    = length (default [] (req_contacts demo_body))
  ∧ logged (save_contacts_request (H:=Demo.plain) demo_request_env demo_body [])
    = false
  ∧ ∃ d path,
      answer (save_contacts_request (H:=Demo.plain) demo_request_env demo_body [])
      = Success ("contacts_" +:+ req_timestamp demo_request_env +:+ ".json") d
      ∧ file_opened
          (save_contacts_request (H:=Demo.plain) demo_request_env demo_body [])
        = Some path
      ∧ file_written
          (save_contacts_request (H:=Demo.plain) demo_request_env demo_body [])
        = Some (path, d)
      ∧ userName d = req_userName demo_body
      ∧ contact_doc (default "unknown" (req_userName demo_body))
          <$> default [] (contacts d)
        = contact_docs (H:=Demo.plain) demo_body_typed.
Proof.
  apply (save_contacts_succeeds (H:=Demo.plain) demo_request_env demo_body
           demo_body_typed []); reflexivity.
Defined.

(** The body [{"contacts": [{"phones": [9876543210]}]}], with every
    storage operation and every insertion succeeding. *)
Lemma save_contacts_fails_witness :
  answer (save_contacts_request (H:=Demo.plain) demo_request_env
            demo_body_number [])
  = HTTPException 500
  ∧ 500 = 500
  ∧ logged (save_contacts_request (H:=Demo.plain) demo_request_env
              demo_body_number []) = true
  ∧ (((typed_body demo_body_number = None
       ∨ makedirs_ok demo_request_env = false
       ∨ open_ok demo_request_env = false)
      ∧ stored (save_contacts_request (H:=Demo.plain) demo_request_env
                  demo_body_number []) = []
      ∧ file_opened (save_contacts_request (H:=Demo.plain) demo_request_env
                       demo_body_number []) = None
      ∧ file_written (save_contacts_request (H:=Demo.plain) demo_request_env
                        demo_body_number []) = None)
     ∨ (dump_ok demo_request_env = false
        ∧ stored (save_contacts_request (H:=Demo.plain) demo_request_env
                    demo_body_number []) = []
        ∧ is_Some (file_opened (save_contacts_request (H:=Demo.plain)
                                  demo_request_env demo_body_number []))
        ∧ file_written (save_contacts_request (H:=Demo.plain) demo_request_env
                          demo_body_number []) = None)
     ∨ (∃ data k,
          typed_body demo_body_number = Some data
          ∧ (k < length (default [] (req_contacts demo_body_number)))%nat
          ∧ req_insert_ok demo_request_env k = false
          ∧ (∀ j, (j < k)%nat → req_insert_ok demo_request_env j = true)
          ∧ stored (save_contacts_request (H:=Demo.plain) demo_request_env
                      demo_body_number [])
            = [] ++ take k (contact_docs (H:=Demo.plain) data)
          ∧ is_Some (file_written (save_contacts_request (H:=Demo.plain)
                                     demo_request_env demo_body_number [])))).
Proof.
  split; [reflexivity|].
  exact (save_contacts_fails (H:=Demo.plain) demo_request_env demo_body_number
           [] 500 eq_refl).
Defined.

(** An insertion failing half-way: the first document stays. *)
Example save_contacts_request_partial :
  let o := save_contacts_request (H:=Demo.plain) demo_request_env_failing
             demo_body [] in
  answer o = HTTPException 500 ∧ length (stored o) = 1 ∧ is_Some (file_written o).
Proof. cbn zeta. split_and!; [reflexivity..|]. by eexists. Qed.
